(** * Decorations service: a shallow embedding of
      [packages/core/src/browser/decorations-service.ts]

    The file embeds the two classes of the source, [DecorationProviderWrapper]
    (one cache per registered provider) and [DecorationsServiceImpl] (the
    registry that fans queries out and publishes change events), as functions
    in a small state-and-exception monad over a [World] that holds the heap of
    wrapper objects, the fired events and the promise callbacks that are still
    waiting to run. *)

From Stdlib Require Import ZArith Lia.
From stdpp Require Import base option list gmap strings.

Open Scope list_scope.

(** ** Values of the source *)

(** Modelled from the spec: the resource identifier type [URI] lives in
    [../common/uri], which is not part of the sources at hand.  The spec asks
    of it equality, a hierarchical containment test and a string round-trip:
    an identifier is its list of path segments, a strict descendant is a
    strictly longer path with that prefix, and [new URI(uri.toString())] gives
    back an equal identifier. *)
Abbreviation URI := (list string).

Definition URI_reparse (uri : URI) : URI := uri.

Definition is_descendant (key candidate : URI) : bool :=
  bool_decide (key `prefix_of` candidate) && negb (bool_decide (key = candidate)).

(** interface [Decoration]: every field is optional. *)
Record Decoration := mkDecoration {
  weight : option Z;
  color : option string;
  letter : option string;
  tooltip : option string;
  bubble : option bool
}.

(** JavaScript truthiness of [deco.bubble]. *)
Definition bubbles (deco : Decoration) : bool :=
  match bubble deco with Some true => true | _ => false end.

(** A thrown or rejected value, as far as the source inspects it:
    [err instanceof Error], [err.name], [err.message]. *)
Record JsError := mkJsError {
  instanceof_Error : bool;
  err_name : string;
  err_message : string
}.

Definition isCanceled (err : JsError) : bool :=
  instanceof_Error err && String.eqb (err_name err) "Canceled"
    && String.eqb (err_message err) "Canceled".

(** What a slot of the tree holds: [DecorationDataRequest | Decoration |
    undefined].  A request object is identified by the cancellation token
    source created for it; [===] on requests is equality of that identity. *)
Inductive Item :=
| Request (source : nat)
| Deco (deco : Decoration)
| Undefined.

Definition truthy (item : Item) : bool :=
  match item with Undefined => false | _ => true end.

Definition instanceof_DecorationDataRequest (item : Item) : bool :=
  match item with Request _ => true | _ => false end.

Definition same_request (item : Item) (source : nat) : bool :=
  match item with Request s => Nat.eqb s source | _ => false end.

Definition item_of (data : option Decoration) : Item :=
  match data with Some deco => Deco deco | None => Undefined end.

(** What [provider.provideDecorations(uri, token)] does when called:
    it returns a decoration or [undefined] at once, returns a thenable, or
    throws. *)
Inductive Provided :=
| Immediate (data : option Decoration)
| Thenable
| Throws (err : JsError).

(** interface [DecorationsProvider].  The token handed to the provider is
    fresh for every call, so a provider may answer every call differently. *)
Record DecorationsProvider := mkProvider {
  label : string;
  provideDecorations : URI → nat → Provided
}.

(** ** The hierarchical container *)

(** Modelled from the spec: [TernarySearchTree] lives in
    [../common/ternary-search-tree], which is not part of the sources at hand.
    The spec describes it as a keyed container with [get(key)] giving the
    entry or [undefined], [set(key, entry)] giving the previous entry or
    [undefined], [delete(key)], [clear()] and a search for the entries whose
    key is a strict descendant of a key.  A slot that was set to [undefined]
    is kept as an entry of the container; [get] answers [undefined] for it as
    it does for a key without entry.  The source tests the result of
    [findSuperstr] for truthiness, so the search answers [undefined] when no
    entry lies strictly below the key. *)
Module TernarySearchTree.

Definition get (tree : gmap URI Item) (key : URI) : Item :=
  default Undefined (tree !! key).

Definition set (tree : gmap URI Item) (key : URI) (element : Item)
    : gmap URI Item * Item :=
  (<[key := element]> tree, get tree key).

Definition delete (tree : gmap URI Item) (key : URI) : gmap URI Item :=
  base.delete key tree.

Definition clear (tree : gmap URI Item) : gmap URI Item := ∅.

Definition below (tree : gmap URI Item) (key : URI) : list (URI * Item) :=
  filter (λ kv, is_descendant key kv.1 = true) (map_to_list tree).

Definition findSuperstr (tree : gmap URI Item) (key : URI)
    : option (list Item) :=
  match below tree key with
  | [] => None
  | entries => Some (entries.*2)
  end.

End TernarySearchTree.

(** ** The world *)

(** class [DecorationProviderWrapper]: [disposable] is the subscription to
    [provider.onDidChange], live until it is disposed. *)
Record DecorationProviderWrapper := mkWrapper {
  provider : DecorationsProvider;
  data : gmap URI Item;
  disposable : bool
}.

(** interface [ResourceDecorationChangeEvent]: the two event objects that the
    source builds. *)
Inductive ResourceDecorationChangeEvent :=
| AffectsEverything                 (* affectsResource() { return true; } *)
| AffectsKnownTo (wrapper : nat).    (* uri => wrapper.knowsAbout(...) *)

(** Wrapper objects live in [heap] and are named by their address; the
    service's array [data] holds addresses.  An emitter is the list of what
    was fired on it, oldest first.  [thenables] holds, for every request whose
    promise has not settled yet, the wrapper and the identifier that its
    [then]/[catch] callbacks captured.  [provided] logs the calls of
    [provideDecorations]: wrapper, identifier, token. *)
Record World := mkWorld {
  heap : gmap nat DecorationProviderWrapper;
  service_data : list nat;
  onDidChangeDecorationsDelayedEmitter : list URI;
  onDidChangeDecorationsEmitter : list ResourceDecorationChangeEvent;
  next_source : nat;
  canceled : list nat;
  thenables : gmap nat (nat * URI);
  provided : list (nat * URI * nat)
}.

Definition empty_world : World :=
  mkWorld ∅ [] [] [] 0 [] ∅ [].

Definition with_heap (f : gmap nat DecorationProviderWrapper → gmap nat DecorationProviderWrapper)
    (σ : World) : World :=
  mkWorld (f (heap σ)) (service_data σ) (onDidChangeDecorationsDelayedEmitter σ)
    (onDidChangeDecorationsEmitter σ) (next_source σ) (canceled σ)
    (thenables σ) (provided σ).

Definition with_service_data (f : list nat → list nat) (σ : World) : World :=
  mkWorld (heap σ) (f (service_data σ)) (onDidChangeDecorationsDelayedEmitter σ)
    (onDidChangeDecorationsEmitter σ) (next_source σ) (canceled σ)
    (thenables σ) (provided σ).

Definition with_thenables (f : gmap nat (nat * URI) → gmap nat (nat * URI))
    (σ : World) : World :=
  mkWorld (heap σ) (service_data σ) (onDidChangeDecorationsDelayedEmitter σ)
    (onDidChangeDecorationsEmitter σ) (next_source σ) (canceled σ)
    (f (thenables σ)) (provided σ).

Definition with_data (f : gmap URI Item → gmap URI Item)
    (W : DecorationProviderWrapper) : DecorationProviderWrapper :=
  mkWrapper (provider W) (f (data W)) (disposable W).

Definition data_of (σ : World) (w : nat) : gmap URI Item :=
  match heap σ !! w with Some W => data W | None => ∅ end.

(** ** The monad: state and exceptions *)

Inductive Result (A : Type) :=
| Ok (a : A) (σ : World)
| Throw (err : JsError) (σ : World).
Arguments Ok {A} a σ.
Arguments Throw {A} err σ.

Definition M (A : Type) : Type := World → Result A.

Definition world_of {A} (r : Result A) : World :=
  match r with Ok _ σ => σ | Throw _ σ => σ end.

Definition ret {A} (a : A) : M A := λ σ, Ok a σ.

Definition bind {A B} (m : M A) (k : A → M B) : M B :=
  λ σ, match m σ with
       | Ok a σ' => k a σ'
       | Throw err σ' => Throw err σ'
       end.

Definition throw {A} (err : JsError) : M A := λ σ, Throw err σ.

Definition modify (f : World → World) : M unit := λ σ, Ok tt (f σ).

Notation "'let*' x := m 'in' k" := (bind m (λ x, k))
  (at level 10, x binder, k at level 200, only parsing).

(** [for (const x of xs) body(x)] *)
Fixpoint for_of {A} (xs : list A) (body : A → M unit) : M unit :=
  match xs with
  | [] => ret tt
  | x :: xs' => let* _ := body x in for_of xs' body
  end.

(** A loop that carries the variables its body assigns. *)
Fixpoint for_of_acc {A Acc} (xs : list A) (body : A → Acc → M Acc) (acc : Acc)
    : M Acc :=
  match xs with
  | [] => ret acc
  | x :: xs' => let* acc' := body x acc in for_of_acc xs' body acc'
  end.

(** ** Primitive effects *)

Definition data_get (w : nat) (key : URI) : M Item :=
  λ σ, Ok (TernarySearchTree.get (data_of σ w) key) σ.

Definition data_set (w : nat) (key : URI) (element : Item) : M Item :=
  λ σ, Ok (TernarySearchTree.set (data_of σ w) key element).2
          (with_heap (alter (with_data (λ tree,
             (TernarySearchTree.set tree key element).1)) w) σ).

Definition data_delete (w : nat) (key : URI) : M unit :=
  modify (with_heap (alter (with_data (λ tree,
    TernarySearchTree.delete tree key)) w)).

Definition data_clear (w : nat) : M unit :=
  modify (with_heap (alter (with_data TernarySearchTree.clear) w)).

Definition data_findSuperstr (w : nat) (key : URI) : M (option (list Item)) :=
  λ σ, Ok (TernarySearchTree.findSuperstr (data_of σ w) key) σ.

(** [this.uriEmitter.fire(uri)]: the service passes its
    [onDidChangeDecorationsDelayedEmitter] as [uriEmitter]. *)
Definition uriEmitter_fire (uri : URI) : M unit :=
  modify (λ σ,
    mkWorld (heap σ) (service_data σ)
      (onDidChangeDecorationsDelayedEmitter σ ++ [uri])
      (onDidChangeDecorationsEmitter σ) (next_source σ) (canceled σ)
      (thenables σ) (provided σ)).

(** [this.flushEmitter.fire(e)] and [this.onDidChangeDecorationsEmitter.fire(e)]:
    the service passes its [onDidChangeDecorationsEmitter] as [flushEmitter]. *)
Definition onDidChangeDecorationsEmitter_fire
    (e : ResourceDecorationChangeEvent) : M unit :=
  modify (λ σ,
    mkWorld (heap σ) (service_data σ)
      (onDidChangeDecorationsDelayedEmitter σ)
      (onDidChangeDecorationsEmitter σ ++ [e]) (next_source σ) (canceled σ)
      (thenables σ) (provided σ)).

(** [new CancellationTokenSource()] *)
Definition new_CancellationTokenSource : M nat :=
  λ σ, Ok (next_source σ)
    (mkWorld (heap σ) (service_data σ)
      (onDidChangeDecorationsDelayedEmitter σ)
      (onDidChangeDecorationsEmitter σ) (S (next_source σ)) (canceled σ)
      (thenables σ) (provided σ)).

(** [source.cancel()] *)
Definition source_cancel (source : nat) : M unit :=
  modify (λ σ,
    mkWorld (heap σ) (service_data σ)
      (onDidChangeDecorationsDelayedEmitter σ)
      (onDidChangeDecorationsEmitter σ) (next_source σ) (canceled σ ++ [source])
      (thenables σ) (provided σ)).

(** [this.provider.provideDecorations(uri, source.token)]: the call is
    logged, its outcome is the provider's. *)
Definition call_provideDecorations (w : nat) (uri : URI) (source : nat)
    : M Provided :=
  λ σ, Ok (match heap σ !! w with
           | Some W => provideDecorations (provider W) uri source
           | None => Immediate None
           end)
    (mkWorld (heap σ) (service_data σ)
      (onDidChangeDecorationsDelayedEmitter σ)
      (onDidChangeDecorationsEmitter σ) (next_source σ) (canceled σ)
      (thenables σ) (provided σ ++ [(w, uri, source)])).

(** [Promise.resolve(dataOrThenable).then(...).catch(...)]: the two callbacks
    of the request wait in [thenables] with what they captured. *)
Definition then_catch (source w : nat) (uri : URI) : M unit :=
  modify (with_thenables (<[source := (w, uri)]>)).

(** ** class DecorationProviderWrapper *)

Module Wrapper.

Definition knowsAbout (W : DecorationProviderWrapper) (uri : URI) : bool :=
  truthy (TernarySearchTree.get (data W) uri)
  || bool_decide (is_Some (TernarySearchTree.findSuperstr (data W) uri)).

Definition keepItem (w : nat) (uri : URI) (data : option Decoration)
    : M (option Decoration) :=
  let deco := data in
  let* old := data_set w uri (item_of deco) in
  let* _ := (if bool_decide (is_Some deco) || truthy old
             then uriEmitter_fire uri
             else ret tt) in
  ret deco.

Definition fetchData (w : nat) (uri : URI) : M (option Decoration) :=
  let* pendingRequest := data_get w (URI_reparse uri) in
  let* _ := (match pendingRequest with
             | Request source =>
                 let* _ := source_cancel source in data_delete w uri
             | _ => ret tt
             end) in
  let* source := new_CancellationTokenSource in
  let* dataOrThenable := call_provideDecorations w (URI_reparse uri) source in
  match dataOrThenable with
  | Throws err => throw err
  | Immediate data => keepItem w uri data
  | Thenable =>
      let* _ := then_catch source w uri in
      let* _ := data_set w uri (Request source) in
      ret None
  end.

(** The callback is a closure over variables of its caller; here it
    transforms the values [acc] of those variables. *)
Definition getOrRetrieve {Acc} (w : nat) (uri : URI) (includeChildren : bool)
    (callback : Decoration → bool → Acc → Acc) (acc : Acc) : M Acc :=
  let* item := data_get w uri in
  let* item := (match item with
                | Undefined =>
                    let* fetched := fetchData w uri in ret (item_of fetched)
                | _ => ret item
                end) in
  let acc := match item with
             | Deco deco => callback deco false acc
             | _ => acc
             end in
  if includeChildren then
    let* iter := data_findSuperstr w uri in
    match iter with
    | Some values =>
        ret (fold_left (λ acc value,
               match value with
               | Deco deco => callback deco true acc
               | _ => acc
               end) values acc)
    | None => ret acc
    end
  else ret acc.

(** The listener that the constructor subscribes to [provider.onDidChange].
    [uris] is [None] for a notification without identifiers ([!uris]
    holds); an array, empty or not, is truthy. *)
Definition onDidChange_listener (w : nat) (uris : option (list URI)) : M unit :=
  match uris with
  | None =>
      let* _ := data_clear w in
      onDidChangeDecorationsEmitter_fire AffectsEverything
  | Some uris =>
      for_of uris (λ uri,
        let* _ := fetchData w (URI_reparse uri) in ret tt)
  end.

(** [new DecorationProviderWrapper(provider, uriEmitter, flushEmitter)] *)
Definition constructor (provider : DecorationsProvider) : M nat :=
  λ σ, let w := fresh (dom (heap σ)) in
       Ok w (with_heap (<[w := mkWrapper provider ∅ true]>) σ).

Definition dispose (w : nat) : M unit :=
  let* _ := modify (with_heap (alter (λ W,
              mkWrapper (provider W) (data W) false) w)) in
  data_clear w.

End Wrapper.

(** ** class DecorationsServiceImpl *)

(** [Array.prototype.indexOf] on the array of wrappers: [-1] when absent. *)
Fixpoint indexOf_from (xs : list nat) (x : nat) (i : Z) : Z :=
  match xs with
  | [] => (-1)%Z
  | y :: ys => if Nat.eqb y x then i else indexOf_from ys x (i + 1)%Z
  end.

Definition indexOf (xs : list nat) (x : nat) : Z := indexOf_from xs x 0%Z.

(** [Array.prototype.splice(start, deleteCount)]: a negative [start] counts
    from the end of the array. *)
Definition splice (xs : list nat) (start deleteCount : Z) : list nat :=
  let len := Z.of_nat (length xs) in
  let actualStart :=
    if (start <? 0)%Z then Z.max (len + start) 0 else Z.min start len in
  let actualDeleteCount := Z.min (Z.max deleteCount 0) (len - actualStart) in
  take (Z.to_nat actualStart) xs
    ++ drop (Z.to_nat (actualStart + actualDeleteCount)) xs.

Module Service.

(** The function given to [Disposable.create] in
    [registerDecorationsProvider], for the wrapper [w] it closes over.
    Disposing the returned handle calls it. *)
Definition registration_dispose (w : nat) : M unit :=
  let* _ := modify (with_service_data (λ data,
              splice data (indexOf data w) 1)) in
  let* _ := onDidChangeDecorationsEmitter_fire (AffectsKnownTo w) in
  Wrapper.dispose w.

(** The result is the wrapper that the returned handle closes over. *)
Definition registerDecorationsProvider (provider : DecorationsProvider)
    : M nat :=
  let* wrapper := Wrapper.constructor provider in
  let* _ := modify (with_service_data (λ data, data ++ [wrapper])) in
  let* _ := onDidChangeDecorationsEmitter_fire AffectsEverything in
  ret wrapper.

(** The callback of [getDecoration] assigns [data] and [containsChildren]. *)
Definition collect (deco : Decoration) (isChild : bool)
    (vars : list Decoration * bool) : list Decoration * bool :=
  let '(data, containsChildren) := vars in
  if negb isChild || bubbles deco
  then (data ++ [deco], isChild || containsChildren)
  else (data, containsChildren).

Definition getDecoration (uri : URI) (includeChildren : bool)
    : M (list Decoration) :=
  λ σ,
    (let* vars := for_of_acc (service_data σ) (λ wrapper vars,
                    Wrapper.getOrRetrieve wrapper (URI_reparse uri)
                      includeChildren collect vars) ([], false) in
     ret vars.1) σ.

End Service.

(** [event.affectsResource(uri)], evaluated in the world [σ]. *)
Definition affectsResource (σ : World) (e : ResourceDecorationChangeEvent)
    (uri : URI) : bool :=
  match e with
  | AffectsEverything => true
  | AffectsKnownTo w =>
      match heap σ !! w with
      | Some W => Wrapper.knowsAbout W (URI_reparse uri)
      | None => false
      end
  end.

(** ** What happens to a service *)

(** The provider of wrapper [w] fires its [onDidChange] event: the listener
    runs while the subscription is live. *)
Definition provider_onDidChange_fire (w : nat) (uris : option (list URI))
    : M unit :=
  λ σ, match heap σ !! w with
       | Some W =>
           if disposable W then Wrapper.onDidChange_listener w uris σ
           else Ok tt σ
       | None => Ok tt σ
       end.

(** The promise behind request [source] is fulfilled with [data]: the [then]
    callback of [fetchData] runs. *)
Definition promise_fulfilled (source : nat) (data : option Decoration)
    : M unit :=
  λ σ, match thenables σ !! source with
       | None => Ok tt σ
       | Some (w, uri) =>
           (let* _ := modify (with_thenables (delete source)) in
            let* current := data_get w uri in
            if same_request current source
            then let* _ := Wrapper.keepItem w uri data in ret tt
            else ret tt) σ
       end.

(** The promise behind request [source] is rejected with [err]: the [catch]
    callback of [fetchData] runs. *)
Definition promise_rejected (source : nat) (err : JsError) : M unit :=
  λ σ, match thenables σ !! source with
       | None => Ok tt σ
       | Some (w, uri) =>
           (let* _ := modify (with_thenables (delete source)) in
            let* current := data_get w uri in
            if negb (isCanceled err) && same_request current source
            then data_delete w uri
            else ret tt) σ
       end.

Inductive Op :=
| GetDecoration (uri : URI) (includeChildren : bool)
| RegisterDecorationsProvider (provider : DecorationsProvider)
| DisposeRegistration (w : nat)
| ProviderDidChange (w : nat) (uris : option (list URI))
| PromiseFulfilled (source : nat) (data : option Decoration)
| PromiseRejected (source : nat) (err : JsError).

Definition step (op : Op) (σ : World) : World :=
  match op with
  | GetDecoration uri includeChildren =>
      world_of (Service.getDecoration uri includeChildren σ)
  | RegisterDecorationsProvider provider =>
      world_of (Service.registerDecorationsProvider provider σ)
  | DisposeRegistration w => world_of (Service.registration_dispose w σ)
  | ProviderDidChange w uris => world_of (provider_onDidChange_fire w uris σ)
  | PromiseFulfilled source data => world_of (promise_fulfilled source data σ)
  | PromiseRejected source err => world_of (promise_rejected source err σ)
  end.

Definition run (ops : list Op) (σ : World) : World :=
  fold_left (λ σ op, step op σ) ops σ.

Definition reachable (σ : World) : Prop :=
  ∃ ops, σ = run ops empty_world.

(** ** Relations between the world before and the world after *)

Definition respects (R : World → World → Prop) {A} (m : M A) : Prop :=
  ∀ σ, R σ (world_of (m σ)).

(** Requests are only ever installed under a fresh identity, together with
    their callbacks, and callbacks are never re-attached. *)
Definition evolves (σ σ' : World) : Prop :=
  next_source σ ≤ next_source σ'
  ∧ (∀ w key r,
       TernarySearchTree.get (data_of σ' w) key = Request r →
       TernarySearchTree.get (data_of σ w) key = Request r
       ∨ (next_source σ ≤ r < next_source σ'
          ∧ ∀ w' key', thenables σ' !! r = Some (w', key') →
                       w' = w ∧ key' = key))
  ∧ (∀ r w key,
       thenables σ' !! r = Some (w, key) →
       thenables σ !! r = Some (w, key)
       ∨ next_source σ ≤ r < next_source σ').

(** Every pending entry is younger than the next token source, and the
    callbacks of its request, when they still wait, captured its slot. *)
Definition requests_ok (σ : World) : Prop :=
  ∀ w key r,
    TernarySearchTree.get (data_of σ w) key = Request r →
    r < next_source σ
    ∧ ∀ w' key', thenables σ !! r = Some (w', key') → w' = w ∧ key' = key.

(** The request [r] was created, and the slot its callbacks captured does
    not hold it. *)
Definition superseded (r : nat) (σ : World) : Prop :=
  r < next_source σ
  ∧ ∀ w key, thenables σ !! r = Some (w, key) →
             TernarySearchTree.get (data_of σ w) key ≠ Request r.

(** Everything of a world but the waiting callbacks. *)
Definition observable (σ : World) :=
  (heap σ, service_data σ, onDidChangeDecorationsDelayedEmitter σ,
   onDidChangeDecorationsEmitter σ, canceled σ, provided σ).

(** Only the slots [keys] of the wrappers [ws] may differ. *)
Definition touches_only (ws : list nat) (keys : list URI) (σ σ' : World)
    : Prop :=
  ∀ w key, (w ∉ ws) ∨ (key ∉ keys) →
           data_of σ' w !! key = data_of σ w !! key.

(** The provider calls made in between are all for the identifier [uri]. *)
Definition calls_only_for (uri : URI) (σ σ' : World) : Prop :=
  ∃ calls, provided σ' = provided σ ++ calls
           ∧ ∀ call, call ∈ calls → call.1.2 = uri.

(** What [getOrRetrieve] hands to its callback, read off the tree of the
    wrapper after the call: the decoration at the identifier itself, then,
    when the children are asked for, the decorations strictly below it. *)
Definition handed_over (tree : gmap URI Item) (uri : URI)
    (includeChildren : bool) : list (Decoration * bool) :=
  match tree !! uri with
  | Some (Deco deco) => [(deco, false)]
  | _ => []
  end
  ++ (if includeChildren
      then omap (λ kv : URI * Item,
                   match kv.2 with
                   | Deco deco => Some (deco, true)
                   | _ => None
                   end) (TernarySearchTree.below tree uri)
      else []).

(** What the callback of [getDecoration] keeps of them. *)
Definition collected (tree : gmap URI Item) (uri : URI)
    (includeChildren : bool) : list Decoration :=
  (filter (λ dc : Decoration * bool, negb dc.2 || bubbles dc.1 = true)
     (handed_over tree uri includeChildren)).*1.

(** The wrappers stay what they are, but for their trees. *)
Definition same_wrappers (σ σ' : World) : Prop :=
  service_data σ' = service_data σ
  ∧ ∀ w, (λ W, (provider W, disposable W)) <$> heap σ' !! w
         = (λ W, (provider W, disposable W)) <$> heap σ !! w.

(** The registered wrappers are distinct objects with a live subscription. *)
Definition registry_ok (σ : World) : Prop :=
  NoDup (service_data σ)
  ∧ ∀ w, w ∈ service_data σ →
         ∃ W, heap σ !! w = Some W ∧ disposable W = true.

(** The tree of the wrapper after [fetchData], by what the provider did. *)
Definition fetched_tree (tree : gmap URI Item) (uri : URI) (source : nat)
    (outcome : Provided) : gmap URI Item :=
  match outcome with
  | Throws _ =>
      match TernarySearchTree.get tree uri with
      | Request _ => base.delete uri tree
      | _ => tree
      end
  | Immediate data => <[uri := item_of data]> tree
  | Thenable => <[uri := Request source]> tree
  end.

(** Nothing was fired on the exposed emitter in between. *)
Definition same_published (σ σ' : World) : Prop :=
  onDidChangeDecorationsEmitter σ' = onDidChangeDecorationsEmitter σ.

(** The world in which the listeners of the event fired by the disposal
    callback run: the wrapper has left the array and is not disposed yet. *)
Definition registration_dispose_firing (w : nat) (σ : World) : World :=
  world_of
    ((let* _ := modify (with_service_data (λ data,
                  splice data (indexOf data w) 1)) in
      onDidChangeDecorationsEmitter_fire (AffectsKnownTo w)) σ).

(** A request in a tree was not cancelled, and sits in one slot only. *)
Definition pending_ok (σ : World) : Prop :=
  (∀ r, r ∈ canceled σ → r < next_source σ)
  ∧ (∀ w key r, TernarySearchTree.get (data_of σ w) key = Request r →
       r < next_source σ ∧ r ∉ canceled σ)
  ∧ (∀ w key w' key' r,
       TernarySearchTree.get (data_of σ w) key = Request r →
       TernarySearchTree.get (data_of σ w') key' = Request r →
       w = w' ∧ key = key').

(** No token source was created or cancelled in between. *)
Definition calm (σ σ' : World) : Prop :=
  next_source σ' = next_source σ ∧ canceled σ' = canceled σ.

(** The property [I] of the world before holds of the world after. *)
Definition keeps (I : World → Prop) (σ σ' : World) : Prop := I σ → I σ'.

(** The slot of [uri] in the tree of wrapper [w] makes [getOrRetrieve]
    fetch: [data.get(uri) === undefined]. *)
Definition unknown_to (σ : World) (uri : URI) (w : nat) : bool :=
  negb (truthy (TernarySearchTree.get (data_of σ w) uri)).

(** No token source was cancelled in between. *)
Definition same_canceled (σ σ' : World) : Prop := canceled σ' = canceled σ.

(** No token source was created and no provider was called in between. *)
Definition idle (σ σ' : World) : Prop :=
  next_source σ' = next_source σ ∧ provided σ' = provided σ.

(** The providers were called with the token sources created so far, one
    call per source, in the order of creation. *)
Definition tokens_ok (σ : World) : Prop :=
  (provided σ).*2 = seq 0 (next_source σ).

(** ** Providers and decorations of the examples *)

Definition badge : Decoration :=
  mkDecoration None None (Some "M") None (Some true).

Definition boom : JsError := mkJsError true "Error" "boom".

Definition absent_provider : DecorationsProvider :=
  mkProvider "absent" (λ _ _, Immediate None).

Definition slow_provider : DecorationsProvider :=
  mkProvider "slow" (λ _ _, Thenable).

Definition failing_provider : DecorationsProvider :=
  mkProvider "failing" (λ _ _, Throws boom).

Definition picky_provider : DecorationsProvider :=
  mkProvider "picky" (λ uri _,
    if bool_decide (uri = ["x"]) then Throws boom else Immediate (Some badge)).

Definition badge_provider : DecorationsProvider :=
  mkProvider "badge" (λ _ _, Immediate (Some badge)).

(** * Proofs *)

(** ** Reasoning about monadic code *)

(** A preorder between the world before and the world after that every
    command of a program respects is respected by the program. *)
Section Respects.
Context (R : World → World → Prop).
Context (R_refl : ∀ σ, R σ σ).
Context (R_trans : ∀ σ1 σ2 σ3, R σ1 σ2 → R σ2 σ3 → R σ1 σ3).

Lemma respects_ret {A} (a : A) : respects R (ret a).
Proof using R_refl. intros σ. apply R_refl. Qed.

Lemma respects_throw {A} err : respects R (@throw A err).
Proof using R_refl. intros σ. apply R_refl. Qed.

Lemma respects_bind {A B} (m : M A) (k : A → M B) :
  respects R m → (∀ a, respects R (k a)) → respects R (bind m k).
Proof using R_trans.
  intros Hm Hk σ. unfold bind. specialize (Hm σ).
  destruct (m σ) as [a σ'|err σ']; simpl in *; [|done].
  eapply R_trans; [exact Hm|apply Hk].
Qed.

Lemma respects_for_of {A} (xs : list A) (body : A → M unit) :
  (∀ x, x ∈ xs → respects R (body x)) → respects R (for_of xs body).
Proof using R_refl R_trans.
  induction xs as [|x xs IH]; intros Hbody; simpl.
  - apply respects_ret.
  - apply respects_bind.
    + apply Hbody. left.
    + intros _. apply IH. intros y Hy. apply Hbody. by right.
Qed.

Lemma respects_for_of_acc {A Acc} (xs : list A) (body : A → Acc → M Acc) acc :
  (∀ x acc, x ∈ xs → respects R (body x acc)) →
  respects R (for_of_acc xs body acc).
Proof using R_refl R_trans.
  revert acc. induction xs as [|x xs IH]; intros acc Hbody; simpl.
  - apply respects_ret.
  - apply respects_bind.
    + apply Hbody. left.
    + intros acc'. apply IH. intros y acc'' Hy. apply Hbody. by right.
Qed.

Lemma respects_modify (f : World → World) :
  (∀ σ, R σ (f σ)) → respects R (modify f).
Proof. intros Hf σ. apply Hf. Qed.

Lemma respects_run (ops : list Op) :
  (∀ op σ, R σ (step op σ)) → ∀ σ, R σ (run ops σ).
Proof using R_refl R_trans.
  intros Hstep. unfold run.
  induction ops as [|op ops IH]; intros σ; simpl; [apply R_refl|].
  eapply R_trans; [apply Hstep|apply IH].
Qed.

End Respects.

(** ** Looking into the trees after a command *)

Lemma data_of_with_data (f : gmap URI Item → gmap URI Item) (w w' : nat) σ :
  data_of (with_heap (alter (with_data f) w) σ) w'
  = if decide (w = w')
    then match heap σ !! w with Some _ => f (data_of σ w) | None => ∅ end
    else data_of σ w'.
Proof.
  unfold data_of, with_heap; simpl. rewrite lookup_alter.
  destruct (decide (w = w')) as [->|Hne]; [|done].
  by destruct (heap σ !! w').
Qed.

Lemma get_empty key : TernarySearchTree.get ∅ key = Undefined.
Proof. unfold TernarySearchTree.get. by rewrite lookup_empty. Qed.

Lemma get_insert tree key element key' :
  TernarySearchTree.get (<[key := element]> tree) key'
  = if decide (key = key') then element else TernarySearchTree.get tree key'.
Proof.
  unfold TernarySearchTree.get. rewrite lookup_insert.
  by destruct (decide (key = key')).
Qed.

Lemma get_delete (tree : gmap URI Item) key key' :
  TernarySearchTree.get (base.delete key tree) key'
  = if decide (key = key') then Undefined else TernarySearchTree.get tree key'.
Proof.
  unfold TernarySearchTree.get. rewrite lookup_delete.
  by destruct (decide (key = key')).
Qed.

Lemma elem_of_below tree key k item :
  (k, item) ∈ TernarySearchTree.below tree key
  ↔ is_descendant key k = true ∧ tree !! k = Some item.
Proof.
  unfold TernarySearchTree.below. rewrite list_elem_of_filter; simpl.
  by rewrite elem_of_map_to_list.
Qed.

Lemma findSuperstr_is_Some tree key :
  is_Some (TernarySearchTree.findSuperstr tree key)
  ↔ ∃ k item, is_descendant key k = true ∧ tree !! k = Some item.
Proof.
  unfold TernarySearchTree.findSuperstr.
  destruct (TernarySearchTree.below tree key) as [|[k item] rest] eqn:Hbelow.
  - split; [by intros [? ?]|]. intros (k & item & Hk).
    apply elem_of_below in Hk. rewrite Hbelow in Hk. by apply elem_of_nil in Hk.
  - split; [|by eexists]. intros _. exists k, item.
    apply elem_of_below. rewrite Hbelow. left.
Qed.

Lemma findSuperstr_values tree key values :
  TernarySearchTree.findSuperstr tree key = Some values →
  values = (TernarySearchTree.below tree key).*2.
Proof.
  unfold TernarySearchTree.findSuperstr.
  destruct (TernarySearchTree.below tree key); [done|]. by intros [= <-].
Qed.

Lemma findSuperstr_None tree key :
  TernarySearchTree.findSuperstr tree key = None →
  TernarySearchTree.below tree key = [].
Proof.
  unfold TernarySearchTree.findSuperstr.
  by destruct (TernarySearchTree.below tree key).
Qed.

(** ** Flush and empty notifications *)

(** C10: a change notification that carries an empty array of identifiers
    leaves the whole world as it was: no tree changes, no provider is called,
    nothing is fired on either emitter. *)
Theorem C10_empty_notification_is_noop (σ : World) (w : nat) :
  provider_onDidChange_fire w (Some []) σ = Ok tt σ.
Proof.
  unfold provider_onDidChange_fire.
  destruct (heap σ !! w) as [W|]; [|done].
  by destruct (disposable W).
Qed.

(** ** knowsAbout *)

(** C8, as amended: [knowsAbout(id)] holds exactly when the slot of [id]
    holds a pending request or a decoration, or the tree has an entry of any
    state strictly below [id]. *)
Theorem C8_knowsAbout_truthy_or_below (W : DecorationProviderWrapper) (id : URI) :
  Wrapper.knowsAbout W id = true
  ↔ (∃ r, data W !! id = Some (Request r))
    ∨ (∃ deco, data W !! id = Some (Deco deco))
    ∨ (∃ k item, is_descendant id k = true ∧ data W !! k = Some item).
Proof.
  unfold Wrapper.knowsAbout. rewrite orb_true_iff, bool_decide_eq_true.
  rewrite findSuperstr_is_Some. unfold TernarySearchTree.get.
  destruct (data W !! id) as [[r|deco|]|] eqn:Hid; simpl.
  - split; [intros _; left; eauto|intros _; by left].
  - split; [intros _; right; left; eauto|intros _; by left].
  - split.
    + intros [?|?]; [done|by right; right].
    + intros [[? ?]|[[? ?]|?]]; [done|done|by right].
  - split.
    + intros [?|?]; [done|by right; right].
    + intros [[? ?]|[[? ?]|?]]; [done|done|by right].
Qed.

(** C8, as stated, fails: after a provider answered [undefined] for ["a"]
    the cache holds a settled-absent entry for it, and [knowsAbout] says no. *)
Lemma C8_counterexample :
  let σ := run [RegisterDecorationsProvider absent_provider;
                GetDecoration ["a"] false] empty_world in
  ∃ W, heap σ !! 0 = Some W
       ∧ data W !! ["a"] = Some Undefined
       ∧ Wrapper.knowsAbout W ["a"] = false.
Proof. eexists. split; [reflexivity|]. split; reflexivity. Qed.

(** ** Absence is not remembered *)

(** C2, on the code: the provider answered [undefined] for ["a"], the tree
    holds the settled-absent entry, and the next query calls the provider
    again. *)
Theorem C2_absent_entry_is_fetched_again :
  let σ := run [RegisterDecorationsProvider absent_provider;
                GetDecoration ["a"] false] empty_world in
  data_of σ 0 !! ["a"] = Some Undefined
  ∧ provided σ = [(0, ["a"], 0)]
  ∧ provided (step (GetDecoration ["a"] false) σ)
    = [(0, ["a"], 0); (0, ["a"], 1)].
Proof. repeat split; reflexivity. Qed.

(** ** Settlements are not republished *)

(** C3, on the code: the promise of the request for ["a"] is fulfilled with a
    decoration; the identifier is fired on the delayed emitter and the
    exposed emitter has nothing but the event of the registration. *)
Theorem C3_settlement_not_republished :
  let σ := run [RegisterDecorationsProvider slow_provider;
                GetDecoration ["a"] false] empty_world in
  let σ' := step (PromiseFulfilled 0 (Some badge)) σ in
  data_of σ 0 !! ["a"] = Some (Request 0)
  ∧ data_of σ' 0 !! ["a"] = Some (Deco badge)
  ∧ onDidChangeDecorationsDelayedEmitter σ' = [["a"]]
  ∧ onDidChangeDecorationsEmitter σ = [AffectsEverything]
  ∧ onDidChangeDecorationsEmitter σ' = onDidChangeDecorationsEmitter σ.
Proof. repeat split; reflexivity. Qed.

(** ** Disposing a registration twice *)

(** C9, on the code: two providers are registered and the handle of the
    first is disposed twice; the second disposal removes the other provider
    from the array. *)
Theorem C9_second_dispose_removes_last :
  let σ := run [RegisterDecorationsProvider absent_provider;
                RegisterDecorationsProvider slow_provider;
                DisposeRegistration 0] empty_world in
  service_data σ = [1]
  ∧ service_data (step (DisposeRegistration 0) σ) = [].
Proof. split; reflexivity. Qed.

(** ** What one call of [fetchData] does *)

Ltac unfold_monad :=
  unfold Wrapper.fetchData, Wrapper.keepItem, data_get, data_set, data_delete,
    data_clear, data_findSuperstr, uriEmitter_fire,
    onDidChangeDecorationsEmitter_fire, new_CancellationTokenSource,
    source_cancel, call_provideDecorations, then_catch, bind, ret, throw,
    modify, URI_reparse in *.

Lemma heap_alter_data (f : gmap URI Item → gmap URI Item) w W σ :
  heap σ !! w = Some W →
  alter (with_data f) w (heap σ)
  = <[w := mkWrapper (provider W) (f (data W)) (disposable W)]> (heap σ).
Proof.
  intros HW. apply map_eq. intros w'. rewrite lookup_alter, lookup_insert.
  destruct (decide (w = w')) as [->|]; [by rewrite HW|done].
Qed.

Lemma fetchData_spec w uri σ W :
  heap σ !! w = Some W →
  let pending := TernarySearchTree.get (data W) uri in
  let source := next_source σ in
  let outcome := provideDecorations (provider W) uri source in
  let σ' := world_of (Wrapper.fetchData w uri σ) in
  Wrapper.fetchData w uri σ
    = match outcome with
      | Throws err => Throw err σ'
      | Immediate data => Ok data σ'
      | Thenable => Ok None σ'
      end
  ∧ heap σ' = <[w := mkWrapper (provider W)
                       (fetched_tree (data W) uri source outcome)
                       (disposable W)]> (heap σ)
  ∧ service_data σ' = service_data σ
  ∧ onDidChangeDecorationsDelayedEmitter σ'
    = onDidChangeDecorationsDelayedEmitter σ
      ++ match outcome, pending with
         | Immediate (Some _), _ | Immediate None, Deco _ => [uri]
         | _, _ => []
         end
  ∧ onDidChangeDecorationsEmitter σ' = onDidChangeDecorationsEmitter σ
  ∧ next_source σ' = S source
  ∧ canceled σ'
    = canceled σ ++ match pending with Request s => [s] | _ => [] end
  ∧ thenables σ'
    = match outcome with
      | Thenable => <[source := (w, uri)]> (thenables σ)
      | _ => thenables σ
      end
  ∧ provided σ' = provided σ ++ [(w, uri, source)].
Proof.
  intros HW pending source outcome σ'.
  subst σ'. unfold_monad. unfold data_of, with_heap, with_thenables.
  rewrite HW. fold pending.
  destruct pending eqn:Hp; simpl; rewrite ?lookup_alter_eq, ?HW; simpl;
    fold source; fold outcome.
  all: destruct outcome as [[d|]| |e] eqn:Ho; simpl;
    rewrite ?lookup_alter_eq, ?HW; simpl.
  all: unfold TernarySearchTree.get, TernarySearchTree.delete in *;
    rewrite ?lookup_delete_eq; simpl.
  all: try (destruct (data W !! uri) as [[?|?|]|] eqn:Hu; simpl in Hp;
            try discriminate Hp; simpl).
  all: repeat split; try reflexivity.
  all: try (by rewrite app_nil_r).
  all: apply map_eq; intros w'; rewrite ?lookup_alter, ?lookup_insert;
    destruct (decide (w = w')) as [<-|Hne]; rewrite ?HW; simpl; try done.
  all: unfold with_data; simpl; rewrite ?decide_True by done; simpl;
    rewrite ?insert_delete_eq; try done.
  all: by destruct W.
Qed.

Lemma fetchData_missing w uri σ :
  heap σ !! w = None →
  Wrapper.fetchData w uri σ
  = Ok None (mkWorld (heap σ) (service_data σ)
               (onDidChangeDecorationsDelayedEmitter σ)
               (onDidChangeDecorationsEmitter σ) (S (next_source σ))
               (canceled σ) (thenables σ)
               (provided σ ++ [(w, uri, next_source σ)])).
Proof.
  intros HW. unfold_monad. unfold data_of, with_heap. rewrite HW.
  rewrite get_empty. simpl. rewrite HW. simpl. rewrite HW. simpl.
  rewrite get_empty. simpl. f_equal.
  f_equal. apply map_eq. intros w'. rewrite lookup_alter.
  destruct (decide (w = w')) as [<-|]; by rewrite ?HW.
Qed.

(** ** The preorders *)

Lemma evolves_refl σ : evolves σ σ.
Proof. split; [lia|]. split; intros; by left. Qed.

Lemma evolves_trans σ1 σ2 σ3 : evolves σ1 σ2 → evolves σ2 σ3 → evolves σ1 σ3.
Proof.
  intros (Hn12 & Hd12 & Ht12) (Hn23 & Hd23 & Ht23).
  split; [lia|]. split.
  - intros w key r Hr.
    destruct (Hd23 w key r Hr) as [Hold|[Hfresh Huniq]].
    + destruct (Hd12 w key r Hold) as [Hold'|[Hfresh Huniq]]; [by left|].
      right. split; [lia|]. intros w' key' Hc.
      destruct (Ht23 r w' key' Hc) as [Hc'|Hfresh']; [by apply Huniq|lia].
    + right. split; [lia|done].
  - intros r w key Hc.
    destruct (Ht23 r w key Hc) as [Hc'|Hfresh]; [|right; lia].
    destruct (Ht12 r w key Hc') as [Hc''|Hfresh]; [by left|right; lia].
Qed.

Lemma evolves_quiet σ σ' :
  next_source σ ≤ next_source σ' →
  (∀ w key r, TernarySearchTree.get (data_of σ' w) key = Request r →
              TernarySearchTree.get (data_of σ w) key = Request r) →
  (∀ r c, thenables σ' !! r = Some c → thenables σ !! r = Some c) →
  evolves σ σ'.
Proof.
  intros Hn Hd Ht. split; [done|]. split.
  - intros w key r Hr. left. by apply Hd.
  - intros r w key Hc. left. by apply Ht.
Qed.

Lemma same_wrappers_refl σ : same_wrappers σ σ.
Proof. by split. Qed.

Lemma same_wrappers_trans σ1 σ2 σ3 :
  same_wrappers σ1 σ2 → same_wrappers σ2 σ3 → same_wrappers σ1 σ3.
Proof.
  intros [Hs12 Hw12] [Hs23 Hw23]. split; [congruence|].
  intros w. by rewrite Hw23.
Qed.

Lemma touches_only_refl ws keys σ : touches_only ws keys σ σ.
Proof. by intros w key _. Qed.

Lemma touches_only_trans ws keys σ1 σ2 σ3 :
  touches_only ws keys σ1 σ2 → touches_only ws keys σ2 σ3 →
  touches_only ws keys σ1 σ3.
Proof. intros H12 H23 w key Hk. rewrite H23, H12; done. Qed.

Lemma touches_only_mono ws ws' keys keys' σ σ' :
  ws ⊆ ws' → keys ⊆ keys' →
  touches_only ws keys σ σ' → touches_only ws' keys' σ σ'.
Proof.
  intros Hws Hkeys H w key Hk. apply H. destruct Hk as [Hk|Hk].
  - left. intros Hin. apply Hk. by apply Hws.
  - right. intros Hin. apply Hk. by apply Hkeys.
Qed.

Lemma touches_only_data_of ws keys σ σ' w :
  touches_only ws keys σ σ' → w ∉ ws → data_of σ' w = data_of σ w.
Proof. intros H Hw. apply map_eq. intros key. apply H. by left. Qed.

Lemma calls_only_for_refl uri σ : calls_only_for uri σ σ.
Proof.
  exists []. split; [by rewrite app_nil_r|].
  intros call Hin. by apply elem_of_nil in Hin.
Qed.

Lemma calls_only_for_trans uri σ1 σ2 σ3 :
  calls_only_for uri σ1 σ2 → calls_only_for uri σ2 σ3 →
  calls_only_for uri σ1 σ3.
Proof.
  intros (c12 & H12 & Hc12) (c23 & H23 & Hc23). exists (c12 ++ c23).
  split; [by rewrite H23, H12, app_assoc|].
  intros call Hin. apply elem_of_app in Hin as [?|?]; auto.
Qed.

(** The tree of one wrapper after a change of the tree of another. *)
Lemma get_with_data f w w' key σ :
  TernarySearchTree.get (data_of (with_heap (alter (with_data f) w) σ) w') key
  = if decide (w = w')
    then match heap σ !! w with
         | Some _ => TernarySearchTree.get (f (data_of σ w)) key
         | None => Undefined
         end
    else TernarySearchTree.get (data_of σ w') key.
Proof.
  rewrite data_of_with_data. destruct (decide (w = w')); [|done].
  destruct (heap σ !! w); [done|apply get_empty].
Qed.

(** ** Every command lets the world evolve *)

Lemma data_set_evolves w key element :
  (∀ r, element ≠ Request r) → respects evolves (data_set w key element).
Proof.
  intros Hne σ. apply evolves_quiet; simpl; [lia| |done].
  intros w' key' r. rewrite get_with_data.
  destruct (decide (w = w')) as [<-|]; [|done].
  destruct (heap σ !! w); [|done]. simpl. rewrite get_insert.
  destruct (decide (key = key')); [|done]. intros ->. by destruct (Hne r).
Qed.

Lemma data_delete_evolves w key : respects evolves (data_delete w key).
Proof.
  intros σ. apply evolves_quiet; simpl; [lia| |done].
  intros w' key' r. rewrite get_with_data.
  destruct (decide (w = w')) as [<-|]; [|done].
  destruct (heap σ !! w); [|done]. unfold TernarySearchTree.delete.
  rewrite get_delete. by destruct (decide (key = key')).
Qed.

Lemma data_clear_evolves w : respects evolves (data_clear w).
Proof.
  intros σ. apply evolves_quiet; simpl; [lia| |done].
  intros w' key' r. rewrite get_with_data.
  destruct (decide (w = w')) as [<-|]; [|done].
  destruct (heap σ !! w); [|done]. unfold TernarySearchTree.clear.
  by rewrite get_empty.
Qed.

Lemma uriEmitter_fire_evolves uri : respects evolves (uriEmitter_fire uri).
Proof. intros σ. apply evolves_quiet; simpl; [lia|done|done]. Qed.

Lemma onDidChangeDecorationsEmitter_fire_evolves e :
  respects evolves (onDidChangeDecorationsEmitter_fire e).
Proof. intros σ. apply evolves_quiet; simpl; [lia|done|done]. Qed.

Lemma forget_thenable_evolves source :
  respects evolves (modify (with_thenables (delete source))).
Proof.
  intros σ. apply evolves_quiet; simpl; [lia|done|].
  intros r c. rewrite lookup_delete. by destruct (decide (source = r)).
Qed.

Lemma with_service_data_evolves f :
  respects evolves (modify (with_service_data f)).
Proof. intros σ. apply evolves_quiet; simpl; [lia|done|done]. Qed.

Lemma item_of_not_request data r : item_of data ≠ Request r.
Proof. by destruct data. Qed.

Lemma keepItem_evolves w uri data :
  respects evolves (Wrapper.keepItem w uri data).
Proof.
  unfold Wrapper.keepItem.
  apply respects_bind; [apply evolves_trans| |intros old].
  { apply data_set_evolves. intros r. apply item_of_not_request. }
  apply respects_bind; [apply evolves_trans| |intros _].
  - destruct (_ || _); [apply uriEmitter_fire_evolves|].
    apply respects_ret, evolves_refl.
  - apply respects_ret, evolves_refl.
Qed.

Lemma fetchData_evolves w uri : respects evolves (Wrapper.fetchData w uri).
Proof.
  intros σ. destruct (heap σ !! w) as [W|] eqn:HW.
  - destruct (fetchData_spec w uri σ W HW)
      as (_ & Hheap & _ & _ & _ & Hnext & _ & Hthen & _).
    set (σ' := world_of (Wrapper.fetchData w uri σ)) in *.
    set (outcome := provideDecorations (provider W) uri (next_source σ)) in *.
    split; [lia|]. split.
    + intros w' key r. unfold data_of at 1. rewrite Hheap, lookup_insert.
      destruct (decide (w = w')) as [<-|]; [|by left]. simpl.
      unfold data_of. rewrite HW. unfold fetched_tree.
      destruct outcome as [data| |err] eqn:Ho.
      * rewrite get_insert. destruct (decide (uri = key)); [|by left].
        intros Hr. by apply item_of_not_request in Hr.
      * rewrite get_insert. destruct (decide (uri = key)) as [<-|]; [|by left].
        intros [= <-]. right. split; [lia|]. rewrite Hthen.
        intros w' key'. rewrite lookup_insert_eq. by intros [= <- <-].
      * destruct (TernarySearchTree.get (data W) uri); try by left.
        rewrite get_delete. destruct (decide (uri = key)); [done|by left].
    + intros r w' key. rewrite Hthen.
      destruct outcome; try by left.
      rewrite lookup_insert. destruct (decide (next_source σ = r)) as [<-|];
        [right; lia|by left].
  - rewrite (fetchData_missing w uri σ HW). simpl.
    apply evolves_quiet; simpl; [lia|done|done].
Qed.

Lemma getOrRetrieve_evolves {Acc} w uri includeChildren
    (callback : Decoration → bool → Acc → Acc) acc :
  respects evolves (Wrapper.getOrRetrieve w uri includeChildren callback acc).
Proof.
  unfold Wrapper.getOrRetrieve.
  apply respects_bind; [apply evolves_trans|by intros σ; apply evolves_refl|].
  intros item. apply respects_bind; [apply evolves_trans| |intros item'].
  - destruct item; try apply respects_ret, evolves_refl.
    apply respects_bind; [apply evolves_trans|apply fetchData_evolves|].
    intros. apply respects_ret, evolves_refl.
  - destruct includeChildren; [|apply respects_ret, evolves_refl].
    apply respects_bind; [apply evolves_trans|by intros σ; apply evolves_refl|].
    intros [values|]; apply respects_ret, evolves_refl.
Qed.

Lemma getDecoration_evolves uri includeChildren :
  respects evolves (Service.getDecoration uri includeChildren).
Proof.
  intros σ. unfold Service.getDecoration.
  apply respects_bind; [apply evolves_trans| |].
  - apply respects_for_of_acc; [apply evolves_refl|apply evolves_trans|].
    intros w vars _. apply getOrRetrieve_evolves.
  - intros vars. apply respects_ret, evolves_refl.
Qed.

Lemma onDidChange_listener_evolves w uris :
  respects evolves (Wrapper.onDidChange_listener w uris).
Proof.
  destruct uris as [uris|]; simpl.
  - apply respects_for_of; [apply evolves_refl|apply evolves_trans|].
    intros uri _. apply respects_bind;
      [apply evolves_trans|apply fetchData_evolves|].
    intros. apply respects_ret, evolves_refl.
  - apply respects_bind; [apply evolves_trans|apply data_clear_evolves|].
    intros _. apply onDidChangeDecorationsEmitter_fire_evolves.
Qed.

Lemma provider_onDidChange_fire_evolves w uris :
  respects evolves (provider_onDidChange_fire w uris).
Proof.
  intros σ. unfold provider_onDidChange_fire.
  destruct (heap σ !! w) as [W|]; [|apply evolves_refl].
  destruct (disposable W); [apply onDidChange_listener_evolves|].
  apply evolves_refl.
Qed.

Lemma promise_fulfilled_evolves source data :
  respects evolves (promise_fulfilled source data).
Proof.
  intros σ. unfold promise_fulfilled.
  destruct (thenables σ !! source) as [[w uri]|]; [|apply evolves_refl].
  apply respects_bind; [apply evolves_trans|apply forget_thenable_evolves|].
  intros _. apply respects_bind;
    [apply evolves_trans|by intros σ'; apply evolves_refl|].
  intros current. destruct (same_request current source);
    [|apply respects_ret, evolves_refl].
  apply respects_bind; [apply evolves_trans|apply keepItem_evolves|].
  intros. apply respects_ret, evolves_refl.
Qed.

Lemma promise_rejected_evolves source err :
  respects evolves (promise_rejected source err).
Proof.
  intros σ. unfold promise_rejected.
  destruct (thenables σ !! source) as [[w uri]|]; [|apply evolves_refl].
  apply respects_bind; [apply evolves_trans|apply forget_thenable_evolves|].
  intros _. apply respects_bind;
    [apply evolves_trans|by intros σ'; apply evolves_refl|].
  intros current. destruct (_ && _);
    [apply data_delete_evolves|apply respects_ret, evolves_refl].
Qed.

Lemma constructor_evolves provider :
  respects evolves (Wrapper.constructor provider).
Proof.
  intros σ. apply evolves_quiet; simpl; [lia| |done].
  intros w key r. unfold data_of; simpl. rewrite lookup_insert.
  destruct (decide (fresh (dom (heap σ)) = w)) as [<-|]; [|done].
  simpl. by rewrite get_empty.
Qed.

Lemma registerDecorationsProvider_evolves provider :
  respects evolves (Service.registerDecorationsProvider provider).
Proof.
  unfold Service.registerDecorationsProvider.
  apply respects_bind; [apply evolves_trans|apply constructor_evolves|].
  intros w. apply respects_bind;
    [apply evolves_trans|apply with_service_data_evolves|].
  intros _. apply respects_bind;
    [apply evolves_trans|apply onDidChangeDecorationsEmitter_fire_evolves|].
  intros _. apply respects_ret, evolves_refl.
Qed.

Lemma wrapper_dispose_evolves w : respects evolves (Wrapper.dispose w).
Proof.
  unfold Wrapper.dispose.
  apply respects_bind; [apply evolves_trans| |intros _; apply data_clear_evolves].
  intros σ. apply evolves_quiet; simpl; [lia| |done].
  intros w' key r. unfold data_of; simpl. rewrite lookup_alter.
  destruct (decide (w = w')) as [<-|]; [|done].
  by destruct (heap σ !! w).
Qed.

Lemma registration_dispose_evolves w :
  respects evolves (Service.registration_dispose w).
Proof.
  unfold Service.registration_dispose.
  apply respects_bind; [apply evolves_trans|apply with_service_data_evolves|].
  intros _. apply respects_bind;
    [apply evolves_trans|apply onDidChangeDecorationsEmitter_fire_evolves|].
  intros _. apply wrapper_dispose_evolves.
Qed.

Lemma step_evolves op σ : evolves σ (step op σ).
Proof.
  destruct op; simpl.
  - apply getDecoration_evolves.
  - apply registerDecorationsProvider_evolves.
  - apply registration_dispose_evolves.
  - apply provider_onDidChange_fire_evolves.
  - apply promise_fulfilled_evolves.
  - apply promise_rejected_evolves.
Qed.

Lemma run_evolves ops σ : evolves σ (run ops σ).
Proof.
  apply respects_run; [apply evolves_refl|apply evolves_trans|].
  apply step_evolves.
Qed.

(** ** Requests and their callbacks *)

Lemma requests_ok_empty : requests_ok empty_world.
Proof. intros w key r. unfold data_of; simpl. by rewrite lookup_empty, get_empty. Qed.

Lemma evolves_requests_ok σ σ' :
  requests_ok σ → evolves σ σ' → requests_ok σ'.
Proof.
  intros Hok (Hn & Hd & Ht) w key r Hr.
  destruct (Hd w key r Hr) as [Hold|[Hfresh Huniq]].
  - destruct (Hok w key r Hold) as [Hlt Hc]. split; [lia|].
    intros w' key' Hc'. destruct (Ht r w' key' Hc') as [?|?]; [by apply Hc|lia].
  - split; [lia|done].
Qed.

Lemma reachable_requests_ok σ : reachable σ → requests_ok σ.
Proof.
  intros [ops ->]. eapply evolves_requests_ok;
    [apply requests_ok_empty|apply run_evolves].
Qed.

Lemma evolves_superseded r σ σ' :
  superseded r σ → evolves σ σ' → superseded r σ'.
Proof.
  intros [Hlt Hdead] (Hn & Hd & Ht). split; [lia|].
  intros w key Hc Hr.
  destruct (Ht r w key Hc) as [Hc'|?]; [|lia].
  destruct (Hd w key r Hr) as [Hold|[? _]]; [|lia].
  by apply (Hdead w key).
Qed.

Lemma superseded_fulfilled r data σ :
  superseded r σ →
  observable (step (PromiseFulfilled r data) σ) = observable σ.
Proof.
  intros [_ Hdead]. simpl. unfold promise_fulfilled.
  destruct (thenables σ !! r) as [[w uri]|] eqn:Hc; [|done].
  unfold_monad. simpl.
  change (data_of (with_thenables (delete r) σ) w) with (data_of σ w).
  specialize (Hdead w uri eq_refl).
  destruct (TernarySearchTree.get (data_of σ w) uri) as [s| |]; simpl; try done.
  destruct (Nat.eqb_spec s r) as [->|]; [done|done].
Qed.

Lemma superseded_rejected r err σ :
  superseded r σ →
  observable (step (PromiseRejected r err) σ) = observable σ.
Proof.
  intros [_ Hdead]. simpl. unfold promise_rejected.
  destruct (thenables σ !! r) as [[w uri]|] eqn:Hc; [|done].
  unfold_monad. simpl.
  change (data_of (with_thenables (delete r) σ) w) with (data_of σ w).
  specialize (Hdead w uri eq_refl).
  destruct (isCanceled err); simpl; [done|].
  destruct (TernarySearchTree.get (data_of σ w) uri) as [s| |]; simpl; try done.
  destruct (Nat.eqb_spec s r) as [->|]; [done|done].
Qed.

Lemma pending_has_wrapper σ w uri r :
  TernarySearchTree.get (data_of σ w) uri = Request r →
  ∃ W, heap σ !! w = Some W ∧ TernarySearchTree.get (data W) uri = Request r.
Proof.
  unfold data_of. destruct (heap σ !! w) as [W|]; [by exists W|].
  by rewrite get_empty.
Qed.

(** ** A superseded fetch *)

(** C1: when [fetchData] is called for an identifier whose slot holds the
    pending request [r1], that request is cancelled and taken out of the tree
    (the slot is empty even when the provider throws and nothing is
    installed), the slot afterwards holds what the second call produced, and
    from then on, whatever else happens to the service, the fulfilment or the
    rejection of the promise of [r1] changes no tree and fires no event. *)
Theorem C1_superseded_fetch_never_writes
    (ops : list Op) (w : nat) (uri : URI) (r1 : nat) :
  let σ := run ops empty_world in
  TernarySearchTree.get (data_of σ w) uri = Request r1 →
  let σ2 := world_of (Wrapper.fetchData w uri σ) in
  canceled σ2 = canceled σ ++ [r1]
  ∧ (∃ W, heap σ !! w = Some W
          ∧ data_of σ2 w !! uri
            = match provideDecorations (provider W) uri (next_source σ) with
              | Throws _ => None
              | Immediate data => Some (item_of data)
              | Thenable => Some (Request (next_source σ))
              end)
  ∧ r1 < next_source σ
  ∧ ∀ ops',
      let σ3 := run ops' σ2 in
      (∀ data, observable (step (PromiseFulfilled r1 data) σ3) = observable σ3)
      ∧ (∀ err, observable (step (PromiseRejected r1 err) σ3) = observable σ3).
Proof.
  intros σ Hpending σ2.
  destruct (pending_has_wrapper σ w uri r1 Hpending) as (W & HW & HWr).
  destruct (reachable_requests_ok σ (ex_intro _ ops eq_refl) w uri r1 Hpending)
    as [Hlt Hclosure].
  destruct (fetchData_spec w uri σ W HW)
    as (_ & Hheap & _ & _ & _ & Hnext & Hcanceled & Hthen & _).
  fold σ2 in Hheap, Hnext, Hcanceled, Hthen.
  rewrite HWr in Hcanceled.
  assert (Hslot : data_of σ2 w !! uri
            = match provideDecorations (provider W) uri (next_source σ) with
              | Throws _ => None
              | Immediate data => Some (item_of data)
              | Thenable => Some (Request (next_source σ))
              end).
  { unfold data_of. rewrite Hheap, lookup_insert_eq. simpl.
    unfold fetched_tree. rewrite HWr.
    destruct (provideDecorations _ _ _).
    - apply lookup_insert_eq.
    - apply lookup_insert_eq.
    - apply lookup_delete_eq. }
  assert (Hsup : superseded r1 σ2).
  { split; [lia|]. intros w' key' Hc Hr.
    assert (thenables σ !! r1 = Some (w', key')) as Hc'.
    { rewrite Hthen in Hc. destruct (provideDecorations _ _ _); try done.
      rewrite lookup_insert_ne in Hc; [done|lia]. }
    destruct (Hclosure w' key' Hc') as [-> ->].
    unfold TernarySearchTree.get in Hr. rewrite Hslot in Hr.
    destruct (provideDecorations _ _ _) as [data| |err]; simpl in Hr.
    - by apply item_of_not_request in Hr.
    - injection Hr as Hr. lia.
    - done. }
  split; [done|]. split; [by exists W|]. split; [done|].
  intros ops' σ3.
  assert (superseded r1 σ3) as Hsup3.
  { eapply evolves_superseded; [exact Hsup|apply run_evolves]. }
  split; intros; [by apply superseded_fulfilled|by apply superseded_rejected].
Qed.

Lemma C1_witness :
  let σ := run [RegisterDecorationsProvider slow_provider;
                GetDecoration ["a"] false] empty_world in
  TernarySearchTree.get (data_of σ 0) ["a"] = Request 0
  ∧ canceled (world_of (Wrapper.fetchData 0 ["a"] σ)) = canceled σ ++ [0]
  ∧ observable (step (PromiseFulfilled 0 (Some badge))
                  (world_of (Wrapper.fetchData 0 ["a"] σ)))
    = observable (world_of (Wrapper.fetchData 0 ["a"] σ)).
Proof.
  intros σ.
  assert (Hpending : TernarySearchTree.get (data_of σ 0) ["a"] = Request 0)
    by reflexivity.
  split; [exact Hpending|].
  pose proof (C1_superseded_fetch_never_writes
                [RegisterDecorationsProvider slow_provider;
                 GetDecoration ["a"] false] 0 ["a"] 0 Hpending)
    as (Hcanceled & _ & _ & Hdead).
  split; [exact Hcanceled|].
  exact (proj1 (Hdead []) (Some badge)).
Defined.

(** ** The registered wrappers *)

Ltac respects_steps refl trans prim :=
  repeat (intros; cbv zeta;
    lazymatch goal with
    | |- respects _ (ret _) => apply (respects_ret _ refl)
    | |- respects _ (throw _) => apply (respects_throw _ refl)
    | |- respects _ (bind _ _) => apply (respects_bind _ trans)
    | |- respects _ (for_of _ _) => apply (respects_for_of _ refl trans)
    | |- respects _ (for_of_acc _ _ _) =>
        apply (respects_for_of_acc _ refl trans)
    | |- respects _ (match ?x with _ => _ end) => destruct x
    | |- respects _ _ => prim
    end).

Ltac as_respects :=
  lazymatch goal with
  | |- ?R ?s (world_of (?m ?s)) => generalize s; change (respects R m)
  end.

Lemma alter_data_same_wrappers f w σ :
  same_wrappers σ (with_heap (alter (with_data f) w) σ).
Proof.
  split; [done|]. intros w'. simpl. rewrite lookup_alter.
  destruct (decide (w = w')) as [<-|]; [|done].
  by destruct (heap σ !! w).
Qed.

Ltac same_wrappers_prim :=
  first
    [ by (intros ?; apply same_wrappers_refl)
    | by (intros ?; apply alter_data_same_wrappers)
    | by (intros ?; split) ].

Lemma keepItem_same_wrappers w uri data :
  respects same_wrappers (Wrapper.keepItem w uri data).
Proof.
  unfold Wrapper.keepItem, data_set, uriEmitter_fire.
  respects_steps same_wrappers_refl same_wrappers_trans same_wrappers_prim.
Qed.

Lemma fetchData_same_wrappers w uri :
  respects same_wrappers (Wrapper.fetchData w uri).
Proof.
  unfold Wrapper.fetchData, data_get, source_cancel, data_delete,
    new_CancellationTokenSource, call_provideDecorations, then_catch, data_set.
  respects_steps same_wrappers_refl same_wrappers_trans
    ltac:(first [apply keepItem_same_wrappers|same_wrappers_prim]).
Qed.

Lemma getOrRetrieve_same_wrappers {Acc} w uri includeChildren
    (callback : Decoration → bool → Acc → Acc) acc :
  respects same_wrappers
    (Wrapper.getOrRetrieve w uri includeChildren callback acc).
Proof.
  unfold Wrapper.getOrRetrieve, data_get, data_findSuperstr.
  respects_steps same_wrappers_refl same_wrappers_trans
    ltac:(first [apply fetchData_same_wrappers|same_wrappers_prim]).
Qed.

Lemma getDecoration_same_wrappers uri includeChildren :
  respects same_wrappers (Service.getDecoration uri includeChildren).
Proof.
  intros σ. unfold Service.getDecoration.
  apply (respects_bind _ same_wrappers_trans).
  - apply (respects_for_of_acc _ same_wrappers_refl same_wrappers_trans).
    intros. apply getOrRetrieve_same_wrappers.
  - intros. apply (respects_ret _ same_wrappers_refl).
Qed.

Lemma onDidChange_listener_same_wrappers w uris :
  respects same_wrappers (Wrapper.onDidChange_listener w uris).
Proof.
  unfold Wrapper.onDidChange_listener, data_clear,
    onDidChangeDecorationsEmitter_fire.
  respects_steps same_wrappers_refl same_wrappers_trans
    ltac:(first [apply fetchData_same_wrappers|same_wrappers_prim]).
Qed.

Lemma provider_onDidChange_fire_same_wrappers w uris :
  respects same_wrappers (provider_onDidChange_fire w uris).
Proof.
  intros σ. unfold provider_onDidChange_fire.
  destruct (heap σ !! w) as [W|]; [|apply same_wrappers_refl].
  destruct (disposable W); [apply onDidChange_listener_same_wrappers|].
  apply same_wrappers_refl.
Qed.

Lemma promise_fulfilled_same_wrappers source data :
  respects same_wrappers (promise_fulfilled source data).
Proof.
  intros σ. unfold promise_fulfilled.
  destruct (thenables σ !! source) as [[w uri]|]; [|apply same_wrappers_refl].
  as_respects. unfold data_get.
  respects_steps same_wrappers_refl same_wrappers_trans
    ltac:(first [apply keepItem_same_wrappers|same_wrappers_prim]).
Qed.

Lemma promise_rejected_same_wrappers source err :
  respects same_wrappers (promise_rejected source err).
Proof.
  intros σ. unfold promise_rejected.
  destruct (thenables σ !! source) as [[w uri]|]; [|apply same_wrappers_refl].
  as_respects. unfold data_get, data_delete.
  respects_steps same_wrappers_refl same_wrappers_trans same_wrappers_prim.
Qed.

Lemma same_wrappers_registry_ok σ σ' :
  registry_ok σ → same_wrappers σ σ' → registry_ok σ'.
Proof.
  intros [Hnd Hreg] [Hsd Hw]. split; [by rewrite Hsd|].
  intros w Hin. rewrite Hsd in Hin. destruct (Hreg w Hin) as (W & HW & Hd).
  specialize (Hw w). rewrite HW in Hw. simpl in Hw.
  destruct (heap σ' !! w) as [W'|]; [|done]. simpl in Hw.
  exists W'. split; [done|]. congruence.
Qed.

(** ** [indexOf] and [splice] *)

Lemma indexOf_from_notin xs x i : x ∉ xs → indexOf_from xs x i = (-1)%Z.
Proof.
  revert i. induction xs as [|y ys IH]; intros i Hnotin; simpl; [done|].
  apply not_elem_of_cons in Hnotin as [Hne Hnotin].
  destruct (Nat.eqb_spec y x); [congruence|]. by apply IH.
Qed.

Lemma indexOf_from_first l1 x l2 i :
  x ∉ l1 → indexOf_from (l1 ++ x :: l2) x i = (i + Z.of_nat (length l1))%Z.
Proof.
  revert i. induction l1 as [|y l1 IH]; intros i Hnotin; simpl.
  - rewrite Nat.eqb_refl. lia.
  - apply not_elem_of_cons in Hnotin as [Hne Hnotin].
    destruct (Nat.eqb_spec y x); [congruence|]. rewrite IH by done. lia.
Qed.

Lemma splice_first l1 (x : nat) l2 :
  splice (l1 ++ x :: l2) (Z.of_nat (length l1)) 1 = l1 ++ l2.
Proof.
  unfold splice. rewrite length_app. simpl.
  destruct (Z.ltb_spec (Z.of_nat (length l1)) 0); [lia|].
  replace (Z.to_nat (Z.min (Z.of_nat (length l1))
             (Z.of_nat (length l1 + S (length l2))))) with (length l1) by lia.
  rewrite take_app_length. f_equal.
  replace (Z.to_nat _) with (length l1 + 1) by lia.
  rewrite drop_app_add'; done.
Qed.

Lemma splice_minus_one (xs : list nat) :
  splice xs (-1) 1 = take (length xs - 1) xs.
Proof.
  unfold splice. simpl.
  destruct xs as [|x xs]; [done|].
  replace (Z.to_nat (Z.max (Z.of_nat (length (x :: xs)) + -1) 0))
    with (length (x :: xs) - 1) by (simpl; lia).
  replace (Z.to_nat _) with (length (x :: xs)) by (simpl; lia).
  rewrite drop_all. by rewrite app_nil_r.
Qed.

(** What the first line of the disposal callback leaves in the array. *)
Lemma splice_indexOf xs w :
  (∃ l1 l2, xs = l1 ++ w :: l2 ∧ (w ∉ l1)
            ∧ splice xs (indexOf xs w) 1 = l1 ++ l2)
  ∨ ((w ∉ xs) ∧ splice xs (indexOf xs w) 1 = take (length xs - 1) xs).
Proof.
  destruct (decide (w ∈ xs)) as [Hin|Hnotin].
  - left. apply list_elem_of_split_l in Hin as (l1 & l2 & -> & Hl1).
    exists l1, l2. split; [done|]. split; [done|].
    unfold indexOf. rewrite indexOf_from_first by done. simpl.
    apply splice_first.
  - right. split; [done|]. unfold indexOf.
    rewrite indexOf_from_notin by done. apply splice_minus_one.
Qed.

Lemma splice_indexOf_sublist xs w :
  splice xs (indexOf xs w) 1 `sublist_of` xs.
Proof.
  destruct (splice_indexOf xs w) as [(l1 & l2 & -> & _ & ->)|[_ ->]].
  - apply sublist_app; [done|]. by apply sublist_cons.
  - apply sublist_take.
Qed.

Lemma splice_indexOf_removes xs w :
  NoDup xs → w ∉ splice xs (indexOf xs w) 1.
Proof.
  intros Hnd. destruct (splice_indexOf xs w) as [(l1 & l2 & -> & Hl1 & ->)|[Hn ->]].
  - apply NoDup_app in Hnd as (_ & Hdisj & Hnd2).
    apply NoDup_cons in Hnd2 as [Hl2 _].
    rewrite elem_of_app. by intros [?|?].
  - intros Hin. apply Hn. by apply (subseteq_take (length xs - 1)).
Qed.

Lemma registry_ok_empty : registry_ok empty_world.
Proof.
  split; simpl; [apply NoDup_nil_2|]. intros w Hin. by apply elem_of_nil in Hin.
Qed.

Lemma registerDecorationsProvider_registry_ok provider σ :
  registry_ok σ →
  registry_ok (world_of (Service.registerDecorationsProvider provider σ)).
Proof.
  intros [Hnd Hreg]. simpl.
  assert (Hfresh : fresh (dom (heap σ)) ∉ service_data σ).
  { intros Hin. destruct (Hreg _ Hin) as (W & HW & _).
    apply (is_fresh (dom (heap σ))). apply elem_of_dom. by exists W. }
  split; simpl.
  - apply NoDup_app. split; [done|]. split; [|apply NoDup_singleton].
    intros w Hin Hw. apply list_elem_of_singleton in Hw. by subst.
  - intros w Hin. apply elem_of_app in Hin as [Hin|Hin].
    + destruct (Hreg w Hin) as (W & HW & Hd). exists W. split; [|done].
      rewrite lookup_insert_ne; [done|]. by intros <-.
    + apply list_elem_of_singleton in Hin as ->.
      eexists. by rewrite lookup_insert_eq.
Qed.

Lemma registration_dispose_registry_ok w σ :
  registry_ok σ →
  registry_ok (world_of (Service.registration_dispose w σ)).
Proof.
  intros [Hnd Hreg]. simpl. split; simpl.
  - eapply sublist_NoDup; [exact Hnd|apply splice_indexOf_sublist].
  - intros w' Hin.
    assert (w' ≠ w) as Hne.
    { intros ->. by apply (splice_indexOf_removes (service_data σ) w). }
    assert (w' ∈ service_data σ) as Hin'.
    { eapply sublist_subseteq; [apply splice_indexOf_sublist|done]. }
    destruct (Hreg w' Hin') as (W & HW & Hd). exists W. split; [|done].
    rewrite !lookup_alter_ne; done.
Qed.

Lemma step_registry_ok op σ : registry_ok σ → registry_ok (step op σ).
Proof.
  intros Hok. destruct op; simpl.
  - eapply same_wrappers_registry_ok; [done|apply getDecoration_same_wrappers].
  - by apply registerDecorationsProvider_registry_ok.
  - by apply registration_dispose_registry_ok.
  - eapply same_wrappers_registry_ok;
      [done|apply provider_onDidChange_fire_same_wrappers].
  - eapply same_wrappers_registry_ok; [done|apply promise_fulfilled_same_wrappers].
  - eapply same_wrappers_registry_ok; [done|apply promise_rejected_same_wrappers].
Qed.

Lemma reachable_registry_ok σ : reachable σ → registry_ok σ.
Proof.
  intros [ops ->]. unfold run.
  assert (∀ σ, registry_ok σ → registry_ok (fold_left (λ σ op, step op σ) ops σ))
    as Hrun.
  { induction ops as [|op ops IH]; intros σ Hok; simpl; [done|].
    by apply IH, step_registry_ok. }
  apply Hrun, registry_ok_empty.
Qed.

(** ** Flush *)

(** C5: when the provider of a registered wrapper fires a change
    notification without identifiers, the tree of that wrapper is emptied
    (pending entries included, and without cancelling them), no provider is
    called, the other trees are as they were, and one event is fired on the
    exposed emitter whose [affectsResource] answers true for every
    identifier, whenever it is asked. *)
Theorem C5_flush_clears_and_affects_everything (σ : World) (w : nat) :
  reachable σ →
  w ∈ service_data σ →
  ∃ σ' e,
    provider_onDidChange_fire w None σ = Ok tt σ'
    ∧ data_of σ' w = ∅
    ∧ (∀ w', w' ≠ w → data_of σ' w' = data_of σ w')
    ∧ canceled σ' = canceled σ
    ∧ provided σ' = provided σ
    ∧ onDidChangeDecorationsEmitter σ' = onDidChangeDecorationsEmitter σ ++ [e]
    ∧ ∀ σ'' uri, affectsResource σ'' e uri = true.
Proof.
  intros Hreach Hin.
  destruct (reachable_registry_ok σ Hreach) as [_ Hreg].
  destruct (Hreg w Hin) as (W & HW & Hd).
  eexists _, AffectsEverything. unfold provider_onDidChange_fire.
  rewrite HW, Hd. simpl. unfold_monad. simpl.
  split; [reflexivity|]. split.
  { unfold data_of, with_heap; simpl. by rewrite lookup_alter_eq, HW. }
  split.
  { intros w' Hne. unfold data_of, with_heap; simpl.
    by rewrite lookup_alter_ne. }
  done.
Qed.

Lemma C5_witness :
  let σ := run [RegisterDecorationsProvider slow_provider;
                GetDecoration ["a"] false] empty_world in
  data_of σ 0 !! ["a"] = Some (Request 0)
  ∧ ∃ σ' e,
      provider_onDidChange_fire 0 None σ = Ok tt σ'
      ∧ data_of σ' 0 = ∅
      ∧ (∀ w', w' ≠ 0 → data_of σ' w' = data_of σ w')
      ∧ canceled σ' = canceled σ
      ∧ provided σ' = provided σ
      ∧ onDidChangeDecorationsEmitter σ' = onDidChangeDecorationsEmitter σ ++ [e]
      ∧ ∀ σ'' uri, affectsResource σ'' e uri = true.
Proof.
  intros σ. split; [reflexivity|].
  apply (C5_flush_clears_and_affects_everything σ 0).
  - by eexists.
  - left.
Defined.

(** ** What a query touches and whom it calls *)

Lemma alter_data_touches_only f w key σ :
  (∀ (tree : gmap URI Item) k, k ≠ key → f tree !! k = tree !! k) →
  touches_only [w] [key] σ (with_heap (alter (with_data f) w) σ).
Proof.
  intros Hf w' k Hk. rewrite data_of_with_data.
  destruct (decide (w = w')) as [<-|]; [|done].
  assert (k ≠ key) as Hne.
  { destruct Hk as [Hk|Hk]; intros ->; apply Hk; left. }
  unfold data_of. destruct (heap σ !! w); [by apply Hf|done].
Qed.

Ltac touches_only_prim :=
  first
    [ by (intros ?; apply touches_only_refl)
    | by (intros ?; apply alter_data_touches_only; intros ? ? ?;
          first [by apply lookup_insert_ne | by apply lookup_delete_ne])
    | by (intros ? ? ? ?) ].

Lemma keepItem_touches_only w uri data :
  respects (touches_only [w] [uri]) (Wrapper.keepItem w uri data).
Proof.
  unfold Wrapper.keepItem, data_set, uriEmitter_fire.
  respects_steps (touches_only_refl [w] [uri]) (touches_only_trans [w] [uri])
    touches_only_prim.
Qed.

Lemma fetchData_touches_only w uri :
  respects (touches_only [w] [uri]) (Wrapper.fetchData w uri).
Proof.
  unfold Wrapper.fetchData, data_get, source_cancel, data_delete,
    new_CancellationTokenSource, call_provideDecorations, then_catch, data_set.
  respects_steps (touches_only_refl [w] [uri]) (touches_only_trans [w] [uri])
    ltac:(first [apply keepItem_touches_only|touches_only_prim]).
Qed.

Lemma getOrRetrieve_touches_only {Acc} w uri includeChildren
    (callback : Decoration → bool → Acc → Acc) acc :
  respects (touches_only [w] [uri])
    (Wrapper.getOrRetrieve w uri includeChildren callback acc).
Proof.
  unfold Wrapper.getOrRetrieve, data_get, data_findSuperstr.
  respects_steps (touches_only_refl [w] [uri]) (touches_only_trans [w] [uri])
    ltac:(first [apply fetchData_touches_only|touches_only_prim]).
Qed.

Lemma fetchData_provided w uri σ :
  provided (world_of (Wrapper.fetchData w uri σ))
  = provided σ ++ [(w, uri, next_source σ)]
  ∧ next_source (world_of (Wrapper.fetchData w uri σ)) = S (next_source σ).
Proof.
  destruct (heap σ !! w) as [W|] eqn:HW.
  - by destruct (fetchData_spec w uri σ W HW)
      as (_ & _ & _ & _ & _ & Hnext & _ & _ & Hprovided).
  - by rewrite (fetchData_missing w uri σ HW).
Qed.

Lemma fetchData_calls_only_for w uri :
  respects (calls_only_for uri) (Wrapper.fetchData w uri).
Proof.
  intros σ. exists [(w, uri, next_source σ)].
  split; [apply fetchData_provided|].
  intros call Hin. by apply list_elem_of_singleton in Hin as ->.
Qed.

Lemma getOrRetrieve_calls_only_for {Acc} w uri includeChildren
    (callback : Decoration → bool → Acc → Acc) acc :
  respects (calls_only_for uri)
    (Wrapper.getOrRetrieve w uri includeChildren callback acc).
Proof.
  unfold Wrapper.getOrRetrieve, data_get, data_findSuperstr.
  respects_steps (calls_only_for_refl uri) (calls_only_for_trans uri)
    ltac:(first [apply fetchData_calls_only_for
                |by (intros ?; apply calls_only_for_refl)]).
Qed.

Lemma getDecoration_calls_only_for uri includeChildren :
  respects (calls_only_for uri) (Service.getDecoration uri includeChildren).
Proof.
  intros σ. unfold Service.getDecoration.
  apply (respects_bind _ (calls_only_for_trans uri)).
  - apply (respects_for_of_acc _ (calls_only_for_refl uri)
             (calls_only_for_trans uri)).
    intros. apply getOrRetrieve_calls_only_for.
  - intros. apply (respects_ret _ (calls_only_for_refl uri)).
Qed.

(** ** What a query collects *)

Lemma fetchData_result w uri σ fetched σ' :
  Wrapper.fetchData w uri σ = Ok fetched σ' →
  match fetched with
  | Some deco => data_of σ' w !! uri = Some (Deco deco)
  | None => ∀ deco, data_of σ' w !! uri ≠ Some (Deco deco)
  end.
Proof.
  destruct (heap σ !! w) as [W|] eqn:HW.
  - destruct (fetchData_spec w uri σ W HW) as (Hres & Hheap & _).
    rewrite Hres. intros Hok.
    assert (σ' = world_of (Wrapper.fetchData w uri σ)) as Hσ'.
    { destruct (provideDecorations _ _ _); congruence. }
    rewrite <- Hσ' in Hheap. unfold data_of. rewrite Hheap, lookup_insert_eq.
    simpl. unfold fetched_tree.
    destruct (provideDecorations _ _ _) as [data| |err]; [| |done].
    + injection Hok as -> _. rewrite lookup_insert_eq. by destruct fetched.
    + injection Hok as <- _. by rewrite lookup_insert_eq.
  - rewrite (fetchData_missing w uri σ HW). intros [= <- <-].
    unfold data_of; simpl. by rewrite HW.
Qed.

Lemma fold_children {Acc} (callback : Decoration → bool → Acc → Acc)
    (entries : list (URI * Item)) acc :
  fold_left (λ acc (value : Item),
     match value with Deco deco => callback deco true acc | _ => acc end)
    (entries.*2) acc
  = fold_left (λ acc (dc : Decoration * bool), callback dc.1 dc.2 acc)
      (omap (λ kv : URI * Item,
         match kv.2 with Deco deco => Some (deco, true) | _ => None end)
         entries) acc.
Proof.
  revert acc. induction entries as [|[k item] entries IH]; intros acc; [done|].
  simpl. destruct item; simpl; apply IH.
Qed.

Lemma getOrRetrieve_children {Acc} (callback : Decoration → bool → Acc → Acc)
    tree uri (includeChildren : bool) acc :
  (if includeChildren
   then match TernarySearchTree.findSuperstr tree uri with
        | Some values =>
            fold_left (λ acc (value : Item),
              match value with Deco deco => callback deco true acc | _ => acc end)
              values acc
        | None => acc
        end
   else acc)
  = fold_left (λ acc (dc : Decoration * bool), callback dc.1 dc.2 acc)
      (if includeChildren
       then omap (λ kv : URI * Item,
              match kv.2 with Deco deco => Some (deco, true) | _ => None end)
              (TernarySearchTree.below tree uri)
       else []) acc.
Proof.
  destruct includeChildren; [|done].
  destruct (TernarySearchTree.findSuperstr tree uri) as [values|] eqn:Hfind.
  - apply findSuperstr_values in Hfind as ->. apply fold_children.
  - apply findSuperstr_None in Hfind. by rewrite Hfind.
Qed.

Lemma getOrRetrieve_spec {Acc} w uri includeChildren
    (callback : Decoration → bool → Acc → Acc) acc σ :
  match Wrapper.getOrRetrieve w uri includeChildren callback acc σ with
  | Ok acc' σ' =>
      acc' = fold_left (λ acc (dc : Decoration * bool), callback dc.1 dc.2 acc)
               (handed_over (data_of σ' w) uri includeChildren) acc
  | Throw err σ' =>
      TernarySearchTree.get (data_of σ w) uri = Undefined
      ∧ Wrapper.fetchData w uri σ = Throw err σ'
  end.
Proof.
  assert (Hexact : ∀ item (tree : gmap URI Item),
    (∀ deco, item = Deco deco ↔ tree !! uri = Some (Deco deco)) →
    match item with Deco deco => callback deco false acc | _ => acc end
    = fold_left (λ acc (dc : Decoration * bool), callback dc.1 dc.2 acc)
        match tree !! uri with
        | Some (Deco deco) => [(deco, false)]
        | _ => []
        end acc).
  { intros item tree Hiff. destruct item as [r|deco|].
    - destruct (tree !! uri) as [[?|deco|]|] eqn:Hu; try done.
      by pose proof (proj2 (Hiff deco) eq_refl).
    - by rewrite (proj1 (Hiff deco) eq_refl).
    - destruct (tree !! uri) as [[?|deco|]|] eqn:Hu; try done.
      by pose proof (proj2 (Hiff deco) eq_refl). }
  assert (Htail : ∀ item σ',
    (∀ deco, item = Deco deco ↔ data_of σ' w !! uri = Some (Deco deco)) →
    (if includeChildren
     then match TernarySearchTree.findSuperstr (data_of σ' w) uri with
          | Some values =>
              fold_left (λ acc (value : Item),
                match value with
                | Deco deco => callback deco true acc
                | _ => acc
                end) values
                match item with Deco deco => callback deco false acc | _ => acc end
          | None =>
              match item with Deco deco => callback deco false acc | _ => acc end
          end
     else match item with Deco deco => callback deco false acc | _ => acc end)
    = fold_left (λ acc (dc : Decoration * bool), callback dc.1 dc.2 acc)
        (handed_over (data_of σ' w) uri includeChildren) acc).
  { intros item σ' Hiff. unfold handed_over. rewrite fold_left_app.
    rewrite <- (Hexact item _ Hiff). apply getOrRetrieve_children. }
  unfold Wrapper.getOrRetrieve, data_get, data_findSuperstr, bind, ret.
  destruct (TernarySearchTree.get (data_of σ w) uri) as [r|deco|] eqn:Hget.
  - assert (Hiff : ∀ deco, Request r = Deco deco
                           ↔ data_of σ w !! uri = Some (Deco deco)).
    { intros deco. unfold TernarySearchTree.get in Hget.
      destruct (data_of σ w !! uri); simpl in Hget; by subst. }
    specialize (Htail _ σ Hiff). destruct includeChildren; [|done].
    by destruct (TernarySearchTree.findSuperstr _ _).
  - assert (Hiff : ∀ deco', Deco deco = Deco deco'
                            ↔ data_of σ w !! uri = Some (Deco deco')).
    { intros deco'. unfold TernarySearchTree.get in Hget.
      destruct (data_of σ w !! uri); simpl in Hget; [|done]. subst.
      split; congruence. }
    specialize (Htail _ σ Hiff). destruct includeChildren; [|done].
    by destruct (TernarySearchTree.findSuperstr _ _).
  - destruct (Wrapper.fetchData w uri σ) as [fetched σ'|err σ'] eqn:Hfetch;
      [|done].
    apply fetchData_result in Hfetch.
    assert (Hiff : ∀ deco, item_of fetched = Deco deco
                           ↔ data_of σ' w !! uri = Some (Deco deco)).
    { intros deco. destruct fetched as [deco'|]; simpl.
      - rewrite Hfetch. split; congruence.
      - split; [done|]. intros Hu. by destruct (Hfetch deco). }
    specialize (Htail _ σ' Hiff). destruct includeChildren; [|done].
    by destruct (TernarySearchTree.findSuperstr _ _).
Qed.

Lemma fold_collect (calls : list (Decoration * bool)) data containsChildren :
  (fold_left (λ vars (dc : Decoration * bool), Service.collect dc.1 dc.2 vars)
     calls (data, containsChildren)).1
  = data ++ (filter (λ dc : Decoration * bool,
               negb dc.2 || bubbles dc.1 = true) calls).*1.
Proof.
  revert data containsChildren.
  induction calls as [|[deco isChild] calls IH]; intros data containsChildren.
  - by rewrite app_nil_r.
  - simpl. rewrite filter_cons. simpl.
    destruct (negb isChild || bubbles deco) eqn:Hkeep.
    + rewrite IH, decide_True by done. simpl. by rewrite <- app_assoc.
    + rewrite IH, decide_False by (by intros ?). done.
Qed.

Lemma elem_of_collected tree uri includeChildren deco :
  deco ∈ collected tree uri includeChildren
  ↔ tree !! uri = Some (Deco deco)
    ∨ (includeChildren = true ∧ bubbles deco = true
       ∧ ∃ k, is_descendant uri k = true ∧ tree !! k = Some (Deco deco)).
Proof.
  unfold collected, handed_over. rewrite list_elem_of_fmap. split.
  - intros ([d isChild] & -> & Hin). simpl.
    apply list_elem_of_filter in Hin as [Hkeep Hin]. simpl in Hkeep.
    apply elem_of_app in Hin as [Hin|Hin].
    + left. destruct (tree !! uri) as [[?|deco|]|];
        try (by apply elem_of_nil in Hin).
      by apply list_elem_of_singleton in Hin as [= -> ->].
    + right. destruct includeChildren; [|by apply elem_of_nil in Hin].
      apply list_elem_of_omap in Hin as ([k item] & Hin & Hitem).
      simpl in Hitem. destruct item as [|deco|]; try done.
      injection Hitem as -> <-. simpl in Hkeep.
      split; [done|]. split; [done|]. exists k. by apply elem_of_below.
  - intros [Hexact|(-> & Hbubble & k & Hk & Hlook)].
    + exists (deco, false). split; [done|].
      apply list_elem_of_filter. split; [done|]. rewrite Hexact.
      apply elem_of_app. left. left.
    + exists (deco, true). split; [done|].
      apply list_elem_of_filter. split; [done|].
      apply elem_of_app. right. apply list_elem_of_omap.
      exists (k, Deco deco). split; [|done]. by apply elem_of_below.
Qed.

Lemma getDecoration_loop_touches uri includeChildren ws vars :
  respects (touches_only ws [uri])
    (for_of_acc ws (λ wrapper vars,
       Wrapper.getOrRetrieve wrapper uri includeChildren Service.collect vars)
       vars).
Proof.
  apply (respects_for_of_acc _ (touches_only_refl ws [uri])
           (touches_only_trans ws [uri])).
  intros w vars' Hin σ.
  eapply (touches_only_mono [w] ws [uri] [uri]);
    [|done|apply getOrRetrieve_touches_only].
  intros w' Hw'. by apply list_elem_of_singleton in Hw' as ->.
Qed.

Lemma getDecoration_loop uri includeChildren ws :
  NoDup ws → ∀ data containsChildren σ,
  match for_of_acc ws (λ wrapper vars,
          Wrapper.getOrRetrieve wrapper uri includeChildren
            Service.collect vars) (data, containsChildren) σ with
  | Ok vars σ' =>
      vars.1 = data ++ flat_map (λ w,
                 collected (data_of σ' w) uri includeChildren) ws
  | Throw _ _ => True
  end.
Proof.
  induction 1 as [|w ws Hnotin Hnd IH]; intros data containsChildren σ; simpl.
  { unfold ret. simpl. by rewrite app_nil_r. }
  unfold bind.
  pose proof (getOrRetrieve_spec w uri includeChildren Service.collect
                (data, containsChildren) σ) as Hvisit.
  destruct (Wrapper.getOrRetrieve w uri includeChildren Service.collect
              (data, containsChildren) σ) as [[data1 cc1] σ1|]; [|done].
  specialize (IH data1 cc1 σ1).
  pose proof (getDecoration_loop_touches uri includeChildren ws (data1, cc1) σ1)
    as Hframe.
  destruct (for_of_acc ws _ (data1, cc1) σ1) as [vars σ'|]; [|done].
  simpl in Hframe. rewrite IH.
  rewrite (touches_only_data_of _ _ _ _ w Hframe Hnotin).
  apply (f_equal fst) in Hvisit. rewrite fold_collect in Hvisit.
  simpl in Hvisit. rewrite Hvisit. unfold collected. by rewrite <- app_assoc.
Qed.

Lemma fetchData_throws w uri σ err σ' :
  Wrapper.fetchData w uri σ = Throw err σ' →
  ∃ W, heap σ !! w = Some W
       ∧ provideDecorations (provider W) uri (next_source σ) = Throws err.
Proof.
  destruct (heap σ !! w) as [W|] eqn:HW.
  - destruct (fetchData_spec w uri σ W HW) as (Hres & _).
    rewrite Hres. intros Hthrow. exists W. split; [done|].
    destruct (provideDecorations _ _ _); congruence.
  - by rewrite (fetchData_missing w uri σ HW).
Qed.

Lemma same_wrappers_provider σ σ' w W' :
  same_wrappers σ σ' → heap σ' !! w = Some W' →
  ∃ W, heap σ !! w = Some W ∧ provider W = provider W'.
Proof.
  intros [_ Hw] HW'. specialize (Hw w). rewrite HW' in Hw. simpl in Hw.
  destruct (heap σ !! w) as [W|]; [|done]. exists W. split; [done|].
  simpl in Hw. congruence.
Qed.

Lemma getDecoration_loop_throws uri includeChildren σ ws :
  ∀ vars σ1 err σ',
  same_wrappers σ σ1 →
  for_of_acc ws (λ wrapper vars,
    Wrapper.getOrRetrieve wrapper uri includeChildren Service.collect vars)
    vars σ1 = Throw err σ' →
  ∃ w W token, w ∈ ws ∧ heap σ !! w = Some W
               ∧ provideDecorations (provider W) uri token = Throws err.
Proof.
  induction ws as [|w ws IH]; intros vars σ1 err σ' Hsame; simpl; [done|].
  unfold bind.
  pose proof (getOrRetrieve_spec w uri includeChildren Service.collect vars σ1)
    as Hvisit.
  pose proof (getOrRetrieve_same_wrappers w uri includeChildren
                Service.collect vars σ1) as Hsame1.
  destruct (Wrapper.getOrRetrieve w uri includeChildren Service.collect vars σ1)
    as [vars1 σ2|err' σ2].
  - intros Hloop. simpl in Hsame1.
    destruct (IH vars1 σ2 err σ') as (w' & W & token & Hin & HW & Hthrows);
      [by eapply same_wrappers_trans|done|].
    exists w', W, token. split; [by right|done].
  - intros [= -> ->]. destruct Hvisit as [_ Hfetch].
    apply fetchData_throws in Hfetch as (W1 & HW1 & Hthrows).
    destruct (same_wrappers_provider σ σ1 w W1 Hsame HW1) as (W & HW & Hp).
    exists w, W, (next_source σ1). split; [left|]. split; [done|].
    by rewrite Hp.
Qed.

(** [getDecoration] throws only what a registered provider threw when it was
    called for the identifier. *)
Lemma getDecoration_throws uri includeChildren σ err σ' :
  Service.getDecoration uri includeChildren σ = Throw err σ' →
  ∃ w W token, w ∈ service_data σ ∧ heap σ !! w = Some W
               ∧ provideDecorations (provider W) uri token = Throws err.
Proof.
  unfold Service.getDecoration, URI_reparse, bind.
  destruct (for_of_acc _ _ _ σ) as [vars σ1|err1 σ1] eqn:Hloop; [done|].
  intros [= -> ->].
  by apply (getDecoration_loop_throws uri includeChildren σ _ ([], false) σ
              err σ' (same_wrappers_refl σ)).
Qed.

Lemma getDecoration_returns uri includeChildren σ :
  (∀ w W token err, w ∈ service_data σ → heap σ !! w = Some W →
     provideDecorations (provider W) uri token ≠ Throws err) →
  ∃ result σ', Service.getDecoration uri includeChildren σ = Ok result σ'.
Proof.
  intros Hquiet.
  destruct (Service.getDecoration uri includeChildren σ) as [result σ'|err σ']
    eqn:Hget; [by eauto|].
  apply getDecoration_throws in Hget as (w & W & token & Hin & HW & Hthrows).
  by destruct (Hquiet w W token err).
Qed.

(** ** Bubble filtering *)

(** C6: the callback of [getDecoration] keeps a decoration handed over as an
    exact match always and one handed over as a child exactly when its
    [bubble] flag is set; the result of a call lists, provider by provider,
    the decoration cached at the identifier itself and, when the children
    are asked for, the bubbling decorations cached strictly below it, so that
    pending and absent entries below contribute nothing; the only provider
    calls the query makes are for the identifier itself; and the query
    returns unless a registered provider throws. *)
Theorem C6_bubble_filtering (σ : World) (uri : URI) (includeChildren : bool) :
  reachable σ →
  (∀ deco isChild data containsChildren,
     (Service.collect deco isChild (data, containsChildren)).1
     = if negb isChild || bubbles deco then data ++ [deco] else data)
  ∧ calls_only_for uri σ
      (world_of (Service.getDecoration uri includeChildren σ))
  ∧ ((∀ w W token err, w ∈ service_data σ → heap σ !! w = Some W →
        provideDecorations (provider W) uri token ≠ Throws err) →
     ∃ result σ', Service.getDecoration uri includeChildren σ = Ok result σ')
  ∧ match Service.getDecoration uri includeChildren σ with
    | Ok result σ' =>
        result = flat_map (λ w, collected (data_of σ' w) uri includeChildren)
                   (service_data σ)
        ∧ ∀ deco,
            deco ∈ result
            ↔ ∃ w, w ∈ service_data σ
                   ∧ (data_of σ' w !! uri = Some (Deco deco)
                      ∨ (includeChildren = true ∧ bubbles deco = true
                         ∧ ∃ k, is_descendant uri k = true
                                ∧ data_of σ' w !! k = Some (Deco deco)))
    | Throw _ _ => True
    end.
Proof.
  intros Hreach. split.
  { intros deco isChild data containsChildren. simpl.
    by destruct (negb isChild || bubbles deco). }
  split; [apply getDecoration_calls_only_for|].
  split; [apply getDecoration_returns|].
  destruct (reachable_registry_ok σ Hreach) as [Hnd _].
  pose proof (getDecoration_loop uri includeChildren (service_data σ) Hnd
                [] false σ) as Hloop.
  unfold Service.getDecoration, URI_reparse, bind.
  destruct (for_of_acc _ _ _ σ) as [vars σ'|]; [|done].
  unfold ret. simpl in Hloop. split; [done|].
  intros deco. rewrite Hloop, list_elem_of_In, in_flat_map.
  setoid_rewrite <- list_elem_of_In.
  by setoid_rewrite elem_of_collected.
Qed.

Lemma C6_witness :
  let σ := run [RegisterDecorationsProvider badge_provider;
                GetDecoration ["a"; "b"] false] empty_world in
  reachable σ
  ∧ calls_only_for ["a"] σ (world_of (Service.getDecoration ["a"] true σ))
  ∧ match Service.getDecoration ["a"] true σ with
    | Ok result _ => result = [badge; badge]
    | Throw _ _ => False
    end.
Proof.
  intros σ.
  assert (Hreach : reachable σ) by (by eexists).
  split; [exact Hreach|].
  destruct (C6_bubble_filtering σ ["a"] true Hreach) as (_ & Hcalls & _ & _).
  split; [exact Hcalls|]. vm_compute. reflexivity.
Defined.

(** ** Faults of a provider *)

Lemma getOrRetrieve_world {Acc} w uri includeChildren
    (callback : Decoration → bool → Acc → Acc) acc σ :
  world_of (Wrapper.getOrRetrieve w uri includeChildren callback acc σ)
  = match TernarySearchTree.get (data_of σ w) uri with
    | Undefined => world_of (Wrapper.fetchData w uri σ)
    | _ => σ
    end.
Proof.
  unfold Wrapper.getOrRetrieve, data_get, data_findSuperstr, bind, ret.
  destruct (TernarySearchTree.get (data_of σ w) uri).
  - destruct includeChildren; [|done].
    by destruct (TernarySearchTree.findSuperstr _ _).
  - destruct includeChildren; [|done].
    by destruct (TernarySearchTree.findSuperstr _ _).
  - destruct (Wrapper.fetchData w uri σ) as [fetched σ'|]; [|done].
    destruct includeChildren; [|done].
    by destruct (TernarySearchTree.findSuperstr _ _).
Qed.

Lemma registerDecorationsProvider_returns provider σ :
  ∃ w σ', Service.registerDecorationsProvider provider σ = Ok w σ'.
Proof. by eexists _, _. Qed.

Lemma promise_rejected_returns source err σ :
  ∃ σ', promise_rejected source err σ = Ok tt σ'.
Proof.
  unfold promise_rejected.
  destruct (thenables σ !! source) as [[w uri]|]; [|by eexists].
  unfold_monad. simpl. destruct (_ && _); by eexists.
Qed.

(** C4, as amended: a rejection of the promise that [provideDecorations]
    returned stays inside the wrapper.  In every world,
    [registerDecorationsProvider] returns, [getDecoration] throws only what
    a registered provider threw synchronously when it was called for the
    identifier, and the [catch] callback returns, whatever is rejected and
    whether or not the request still waits.  A rejection with the
    cancellation error, and any rejection of a request that its slot no
    longer holds, changes nothing that can be observed.  When the promise of
    the request that the slot holds is rejected with anything but the
    cancellation error, the slot is emptied, no event is fired, and the next
    query for the identifier calls the provider again. *)
Theorem C4_rejections_are_contained (σ : World) :
  (∀ provider, ∃ w' σ',
     Service.registerDecorationsProvider provider σ = Ok w' σ')
  ∧ (∀ uri' includeChildren thrown σ',
       Service.getDecoration uri' includeChildren σ = Throw thrown σ' →
       ∃ w' W token, w' ∈ service_data σ ∧ heap σ !! w' = Some W
         ∧ provideDecorations (provider W) uri' token = Throws thrown)
  ∧ (∀ source err, ∃ σ', promise_rejected source err σ = Ok tt σ')
  ∧ (∀ source canceled_err, isCanceled canceled_err = true →
       ∃ σ', promise_rejected source canceled_err σ = Ok tt σ'
             ∧ observable σ' = observable σ)
  ∧ (∀ source err w uri,
       thenables σ !! source = Some (w, uri) →
       TernarySearchTree.get (data_of σ w) uri ≠ Request source →
       ∃ σ', promise_rejected source err σ = Ok tt σ'
             ∧ observable σ' = observable σ)
  ∧ (∀ source err w uri,
       thenables σ !! source = Some (w, uri) →
       TernarySearchTree.get (data_of σ w) uri = Request source →
       isCanceled err = false →
       ∃ σ',
         promise_rejected source err σ = Ok tt σ'
         ∧ data_of σ' w !! uri = None
         ∧ (∀ w' key, ¬ (w' = w ∧ key = uri) →
              data_of σ' w' !! key = data_of σ w' !! key)
         ∧ onDidChangeDecorationsDelayedEmitter σ'
           = onDidChangeDecorationsDelayedEmitter σ
         ∧ onDidChangeDecorationsEmitter σ' = onDidChangeDecorationsEmitter σ
         ∧ ∀ includeChildren,
             provided (world_of (Wrapper.getOrRetrieve w uri includeChildren
                                   Service.collect ([], false) σ'))
             = provided σ' ++ [(w, uri, next_source σ')]).
Proof.
  split; [intros; apply registerDecorationsProvider_returns|].
  split; [intros uri' includeChildren thrown σ'; apply getDecoration_throws|].
  split; [intros; apply promise_rejected_returns|].
  split.
  { intros source canceled_err Hc. unfold promise_rejected.
    destruct (thenables σ !! source) as [[w uri]|]; [|by eexists].
    unfold_monad. simpl. rewrite Hc. simpl. by eexists. }
  split.
  { intros source err w uri Hthen Hstale. unfold promise_rejected.
    rewrite Hthen. unfold_monad. simpl.
    change (data_of (with_thenables (delete source) σ) w) with (data_of σ w).
    assert (same_request (TernarySearchTree.get (data_of σ w) uri) source
            = false) as ->.
    { destruct (TernarySearchTree.get (data_of σ w) uri) as [s| |]; try done.
      simpl. apply Nat.eqb_neq. by intros ->. }
    rewrite andb_false_r. by eexists. }
  intros source err w uri Hthen Hpending Hnot.
  destruct (pending_has_wrapper σ w uri source Hpending) as (W & HW & HWr).
  unfold promise_rejected. rewrite Hthen. unfold_monad. simpl.
  change (data_of (with_thenables (delete source) σ) w) with (data_of σ w).
  rewrite Hpending, Hnot. simpl. rewrite Nat.eqb_refl. simpl.
  eexists. split; [reflexivity|].
  assert (Hgone : data_of (with_heap
            (alter (with_data (λ tree, TernarySearchTree.delete tree uri)) w)
            (with_thenables (delete source) σ)) w !! uri = None).
  { rewrite data_of_with_data, decide_True by done. simpl. rewrite HW.
    apply lookup_delete_eq. }
  split; [exact Hgone|]. split.
  { intros w' key Hne. rewrite data_of_with_data.
    destruct (decide (w = w')) as [<-|]; [|done]. simpl. rewrite HW.
    change (data_of (with_thenables (delete source) σ) w) with (data_of σ w).
    unfold TernarySearchTree.delete. apply lookup_delete_ne.
    intros <-. by apply Hne. }
  split; [done|]. split; [done|].
  intros includeChildren. rewrite getOrRetrieve_world.
  unfold TernarySearchTree.get at 1. rewrite Hgone. simpl.
  match goal with
  | |- provided (world_of (Wrapper.fetchData _ _ ?s)) = _ =>
      exact (proj1 (fetchData_provided w uri s))
  end.
Qed.

Lemma C4_witness :
  let σ := run [RegisterDecorationsProvider slow_provider;
                GetDecoration ["a"] false] empty_world in
  thenables σ !! 0 = Some (0, ["a"])
  ∧ ∃ σ', promise_rejected 0 boom σ = Ok tt σ'
          ∧ data_of σ' 0 !! ["a"] = None.
Proof.
  intros σ.
  assert (H1 : thenables σ !! 0 = Some (0, ["a"])) by reflexivity.
  assert (H2 : TernarySearchTree.get (data_of σ 0) ["a"] = Request 0)
    by reflexivity.
  assert (H3 : isCanceled boom = false) by reflexivity.
  split; [exact H1|].
  destruct (C4_rejections_are_contained σ) as (_ & _ & _ & _ & _ & Hcurrent).
  destruct (Hcurrent 0 boom 0 ["a"] H1 H2 H3) as (σ' & Hrej & Hgone & _).
  exists σ'. split; [exact Hrej|exact Hgone].
Defined.

(** C4, as stated, fails: a provider that throws synchronously makes
    [getDecoration] throw. *)
Lemma C4_counterexample :
  let σ := run [RegisterDecorationsProvider failing_provider] empty_world in
  match Service.getDecoration ["a"] false σ with
  | Throw err _ => err = boom
  | Ok _ _ => False
  end.
Proof. vm_compute. reflexivity. Qed.

(** ** Selective notifications *)

Lemma onDidChange_listener_touches_only w uris :
  respects (touches_only [w] uris)
    (Wrapper.onDidChange_listener w (Some uris)).
Proof.
  simpl. apply (respects_for_of _ (touches_only_refl [w] uris)
                  (touches_only_trans [w] uris)).
  intros uri Hin. apply (respects_bind _ (touches_only_trans [w] uris)).
  - intros σ. eapply (touches_only_mono [w] [w] [uri] uris);
      [done| |apply fetchData_touches_only].
    intros key Hkey. by apply list_elem_of_singleton in Hkey as ->.
  - intros. apply (respects_ret _ (touches_only_refl [w] uris)).
Qed.

Lemma fetchData_keeps_provider w uri σ W :
  heap σ !! w = Some W →
  ∃ W', heap (world_of (Wrapper.fetchData w uri σ)) !! w = Some W'
        ∧ provider W' = provider W.
Proof.
  intros HW. destruct (fetchData_spec w uri σ W HW) as (_ & Hheap & _).
  rewrite Hheap, lookup_insert_eq. by eexists.
Qed.

(** The calls of one run of the listener over the named identifiers. *)
Lemma onDidChange_listener_calls w p uris :
  ∀ σ W, heap σ !! w = Some W → provider W = p →
  let r := for_of uris (λ uri,
             let* _ := Wrapper.fetchData w (URI_reparse uri) in ret tt) σ in
  ∃ n, n ≤ length uris
       ∧ provided (world_of r)
         = provided σ
           ++ imap (λ i uri, (w, uri, next_source σ + i)) (take n uris)
       ∧ match r with
         | Ok _ _ => n = length uris
         | Throw err _ =>
             ∃ i uri, n = S i ∧ uris !! i = Some uri
               ∧ provideDecorations p uri (next_source σ + i) = Throws err
         end.
Proof.
  induction uris as [|uri uris IH]; intros σ W HW Hp r.
  { exists 0. simpl. by rewrite app_nil_r. }
  assert (Hr : r = match Wrapper.fetchData w uri σ with
                   | Ok _ σ1 =>
                       for_of uris (λ uri,
                         let* _ := Wrapper.fetchData w (URI_reparse uri) in
                         ret tt) σ1
                   | Throw err σ1 => Throw err σ1
                   end).
  { unfold r. simpl. unfold bind, ret, URI_reparse.
    by destruct (Wrapper.fetchData w uri σ). }
  clearbody r. subst r.
  destruct (fetchData_provided w uri σ) as [Hprov Hnext].
  destruct (fetchData_keeps_provider w uri σ W HW) as (W1 & HW1 & Hp1).
  destruct (Wrapper.fetchData w uri σ) as [fetched σ1|err σ1] eqn:Hfetch.
  - simpl in Hprov, Hnext, HW1.
    destruct (IH σ1 W1 HW1 (eq_trans Hp1 Hp)) as (n & Hn & Hcalls & Hend).
    exists (S n). split; [simpl; lia|]. split.
    + rewrite Hcalls, Hprov, <- app_assoc. simpl. f_equal.
      rewrite Nat.add_0_r. f_equal. apply imap_ext. intros i x _. simpl.
      rewrite Hnext. f_equal. lia.
    + destruct (for_of uris _ σ1) as [|err σ2]; [simpl; lia|].
      destruct Hend as (i & uri' & -> & Hi & Hthrows).
      exists (S i), uri'. split; [done|]. split; [done|].
      rewrite Hnext in Hthrows. by replace (next_source σ + S i)
        with (S (next_source σ) + i) by lia.
  - simpl in Hprov. exists 1. split; [simpl; lia|]. split.
    + simpl. rewrite Hprov. by rewrite Nat.add_0_r, ?take_0.
    + exists 0, uri. split; [done|]. split; [done|].
      apply fetchData_throws in Hfetch as (W' & HW' & Hthrows).
      rewrite Nat.add_0_r. congruence.
Qed.

(** C7, as amended: when a registered provider fires a change notification
    with a list of identifiers, [provideDecorations] is called for the named
    identifiers in the order named, once per occurrence and whatever their
    slots hold, up to and including the first one at which it throws; it is
    called for all of them when it does not throw, and then the listener
    returns.  In every case the slots of the identifiers that are not named,
    and the trees of the other wrappers, are as they were. *)
Theorem C7_selective_notification
    (σ : World) (w : nat) (W : DecorationProviderWrapper) (uris : list URI) :
  reachable σ →
  w ∈ service_data σ →
  heap σ !! w = Some W →
  let r := provider_onDidChange_fire w (Some uris) σ in
  touches_only [w] uris σ (world_of r)
  ∧ (∃ n, n ≤ length uris
          ∧ provided (world_of r)
            = provided σ
              ++ imap (λ i uri, (w, uri, next_source σ + i)) (take n uris)
          ∧ match r with
            | Ok _ _ => n = length uris
            | Throw err _ =>
                ∃ i uri, n = S i ∧ uris !! i = Some uri
                  ∧ provideDecorations (provider W) uri (next_source σ + i)
                    = Throws err
            end)
  ∧ ((∀ uri token err, uri ∈ uris →
        provideDecorations (provider W) uri token ≠ Throws err) →
     ∃ σ', r = Ok tt σ'
           ∧ provided σ'
             = provided σ ++ imap (λ i uri, (w, uri, next_source σ + i)) uris).
Proof.
  intros Hreach Hin HW r.
  destruct (reachable_registry_ok σ Hreach) as [_ Hreg].
  destruct (Hreg w Hin) as (W' & HW' & Hd).
  assert (W' = W) as -> by congruence.
  assert (Hr : r = Wrapper.onDidChange_listener w (Some uris) σ).
  { unfold r, provider_onDidChange_fire. by rewrite HW, Hd. }
  split; [rewrite Hr; apply onDidChange_listener_touches_only|].
  pose proof (onDidChange_listener_calls w (provider W) uris σ W HW eq_refl)
    as Hcalls.
  simpl in Hcalls. rewrite Hr. simpl.
  split; [exact Hcalls|].
  intros Hquiet. destruct Hcalls as (n & Hn & Hcalls & Hend).
  destruct (for_of uris _ σ) as [[] σ'|err σ'].
  - exists σ'. split; [done|]. subst n. by rewrite firstn_all in Hcalls.
  - destruct Hend as (i & uri & _ & Hi & Hthrows).
    destruct (Hquiet uri (next_source σ + i) err); [|done].
    by eapply list_elem_of_lookup_2.
Qed.

Lemma C7_witness :
  let σ := run [RegisterDecorationsProvider badge_provider;
                GetDecoration ["z"] false] empty_world in
  reachable σ
  ∧ touches_only [0] [["x"]; ["y"]] σ
      (world_of (provider_onDidChange_fire 0 (Some [["x"]; ["y"]]) σ))
  ∧ provided (world_of (provider_onDidChange_fire 0 (Some [["x"]; ["y"]]) σ))
    = provided σ ++ [(0, ["x"], 1); (0, ["y"], 2)].
Proof.
  intros σ.
  assert (Hreach : reachable σ) by (by eexists).
  assert (Hin : 0 ∈ service_data σ) by (vm_compute; left).
  split; [exact Hreach|].
  destruct (C7_selective_notification σ 0
              (mkWrapper badge_provider
                 {[ ["z"] := Deco badge ]} true) [["x"]; ["y"]]
              Hreach Hin eq_refl) as (Hframe & _ & Hall).
  split; [exact Hframe|].
  destruct Hall as (σ' & Hok & Hcalls).
  { intros uri token err _. simpl. discriminate. }
  rewrite Hok. exact Hcalls.
Defined.

(** C7, as stated, fails: the provider throws at the first named identifier
    and the second one is never fetched. *)
Lemma C7_counterexample :
  let σ := run [RegisterDecorationsProvider picky_provider] empty_world in
  let σ' := step (ProviderDidChange 0 (Some [["x"]; ["y"]])) σ in
  provided σ' = [(0, ["x"], 0)]
  ∧ ∀ token, (0, ["y"], token) ∉ provided σ'.
Proof.
  assert (Hcalls : provided (step (ProviderDidChange 0 (Some [["x"]; ["y"]]))
            (run [RegisterDecorationsProvider picky_provider] empty_world))
          = [(0, ["x"], 0)]) by (vm_compute; reflexivity).
  split; [exact Hcalls|].
  intros token. rewrite Hcalls. intros Hin.
  by apply list_elem_of_singleton in Hin.
Qed.

(** * Further properties of the code *)

(** ** What is published *)

Lemma same_published_refl σ : same_published σ σ.
Proof. done. Qed.

Lemma same_published_trans σ1 σ2 σ3 :
  same_published σ1 σ2 → same_published σ2 σ3 → same_published σ1 σ3.
Proof. unfold same_published. congruence. Qed.

Ltac same_published_prim := by intros ?.

Lemma keepItem_same_published w uri data :
  respects same_published (Wrapper.keepItem w uri data).
Proof.
  unfold Wrapper.keepItem, data_set, uriEmitter_fire.
  respects_steps same_published_refl same_published_trans same_published_prim.
Qed.

Lemma fetchData_same_published w uri :
  respects same_published (Wrapper.fetchData w uri).
Proof.
  unfold Wrapper.fetchData, data_get, source_cancel, data_delete,
    new_CancellationTokenSource, call_provideDecorations, then_catch, data_set.
  respects_steps same_published_refl same_published_trans
    ltac:(first [apply keepItem_same_published|same_published_prim]).
Qed.

Lemma getOrRetrieve_same_published {Acc} w uri includeChildren
    (callback : Decoration → bool → Acc → Acc) acc :
  respects same_published
    (Wrapper.getOrRetrieve w uri includeChildren callback acc).
Proof.
  unfold Wrapper.getOrRetrieve, data_get, data_findSuperstr.
  respects_steps same_published_refl same_published_trans
    ltac:(first [apply fetchData_same_published|same_published_prim]).
Qed.

Lemma getDecoration_same_published uri includeChildren :
  respects same_published (Service.getDecoration uri includeChildren).
Proof.
  intros σ. unfold Service.getDecoration.
  apply (respects_bind _ same_published_trans).
  - apply (respects_for_of_acc _ same_published_refl same_published_trans).
    intros. apply getOrRetrieve_same_published.
  - intros. apply (respects_ret _ same_published_refl).
Qed.

Lemma selective_listener_same_published w uris :
  respects same_published (Wrapper.onDidChange_listener w (Some uris)).
Proof.
  unfold Wrapper.onDidChange_listener.
  respects_steps same_published_refl same_published_trans
    ltac:(first [apply fetchData_same_published|same_published_prim]).
Qed.

Lemma promise_fulfilled_same_published source data :
  respects same_published (promise_fulfilled source data).
Proof.
  intros σ. unfold promise_fulfilled.
  destruct (thenables σ !! source) as [[w uri]|]; [|done].
  as_respects. unfold data_get.
  respects_steps same_published_refl same_published_trans
    ltac:(first [apply keepItem_same_published|same_published_prim]).
Qed.

Lemma promise_rejected_same_published source err :
  respects same_published (promise_rejected source err).
Proof.
  intros σ. unfold promise_rejected.
  destruct (thenables σ !! source) as [[w uri]|]; [|done].
  as_respects. unfold data_get, data_delete.
  respects_steps same_published_refl same_published_trans same_published_prim.
Qed.

(** X1: queries, selective change notifications and the settlement of
    promises never fire anything on the exposed emitter: only a registration,
    a disposal and a flush publish an event. *)
Theorem only_structure_and_flush_publish (op : Op) (σ : World) :
  match op with
  | RegisterDecorationsProvider _ | DisposeRegistration _
  | ProviderDidChange _ None => False
  | _ => True
  end →
  onDidChangeDecorationsEmitter (step op σ) = onDidChangeDecorationsEmitter σ.
Proof.
  destruct op as [uri inc| | |w [uris|]|source data|source err]; try done;
    intros _; simpl.
  - apply getDecoration_same_published.
  - unfold provider_onDidChange_fire.
    destruct (heap σ !! w) as [W|]; [|done].
    destruct (disposable W); [|done].
    apply selective_listener_same_published.
  - apply promise_fulfilled_same_published.
  - apply promise_rejected_same_published.
Qed.

Lemma only_structure_and_flush_publish_witness :
  let σ := run [RegisterDecorationsProvider slow_provider;
                GetDecoration ["a"] false] empty_world in
  onDidChangeDecorationsEmitter (step (PromiseFulfilled 0 None) σ)
  = onDidChangeDecorationsEmitter σ.
Proof.
  intros σ. exact (only_structure_and_flush_publish (PromiseFulfilled 0 None) σ I).
Defined.

(** ** Cached and synchronous answers *)

(** X2: a query for an identifier whose slot holds a decoration or a pending
    request is answered from the tree: no provider is called, nothing is
    fired and the world is left as it was; a pending request hands nothing
    over for the identifier itself. *)
Theorem cached_query_changes_nothing {Acc} (w : nat) (uri : URI)
    (includeChildren : bool) (callback : Decoration → bool → Acc → Acc)
    (acc : Acc) (σ : World) :
  TernarySearchTree.get (data_of σ w) uri ≠ Undefined →
  Wrapper.getOrRetrieve w uri includeChildren callback acc σ
  = Ok (fold_left (λ acc (dc : Decoration * bool), callback dc.1 dc.2 acc)
          (handed_over (data_of σ w) uri includeChildren) acc) σ.
Proof.
  intros Hcached.
  pose proof (getOrRetrieve_spec w uri includeChildren callback acc σ) as Hspec.
  pose proof (getOrRetrieve_world w uri includeChildren callback acc σ) as Hw.
  destruct (Wrapper.getOrRetrieve w uri includeChildren callback acc σ)
    as [acc' σ'|err σ'].
  - simpl in Hw.
    assert (σ' = σ) as ->.
    { by destruct (TernarySearchTree.get (data_of σ w) uri). }
    by rewrite Hspec.
  - by destruct Hspec as [Hundef _].
Qed.

Lemma cached_query_changes_nothing_witness :
  let σ := run [RegisterDecorationsProvider slow_provider;
                GetDecoration ["a"] false] empty_world in
  Wrapper.getOrRetrieve 0 ["a"] true Service.collect ([], false) σ
  = Ok ([], false) σ.
Proof.
  intros σ.
  assert (H : TernarySearchTree.get (data_of σ 0) ["a"] ≠ Undefined)
    by (vm_compute; discriminate).
  exact (cached_query_changes_nothing 0 ["a"] true Service.collect
           ([], false) σ H).
Defined.

(** X3: when the provider answers at once, [fetchData] returns the answer and
    stores it in the slot, also over a pending request, which it cancels; it
    fires the identifier on the delayed emitter exactly when the answer is a
    decoration or the slot held a decoration before, so that a pending
    request it replaces does not count as an old value and an absent answer
    for an unknown slot fires nothing. *)
Theorem immediate_answer_is_kept (w : nat) (uri : URI) (σ : World)
    (W : DecorationProviderWrapper) (data : option Decoration) :
  heap σ !! w = Some W →
  provideDecorations (provider W) uri (next_source σ) = Immediate data →
  ∃ σ',
    Wrapper.fetchData w uri σ = Ok data σ'
    ∧ data_of σ' w = <[uri := item_of data]> (data_of σ w)
    ∧ onDidChangeDecorationsDelayedEmitter σ'
      = onDidChangeDecorationsDelayedEmitter σ
        ++ (if bool_decide (is_Some data)
               || match TernarySearchTree.get (data_of σ w) uri with
                  | Deco _ => true
                  | _ => false
                  end
            then [uri] else [])
    ∧ canceled σ'
      = canceled σ ++ match TernarySearchTree.get (data_of σ w) uri with
                      | Request s => [s]
                      | _ => []
                      end
    ∧ thenables σ' = thenables σ.
Proof.
  intros HW Hanswer.
  destruct (fetchData_spec w uri σ W HW)
    as (Hres & Hheap & _ & Hdelayed & _ & _ & Hcanceled & Hthen & _).
  rewrite Hanswer in *. eexists. split; [exact Hres|].
  unfold data_of at 1 2 3 4. rewrite Hheap, lookup_insert_eq, HW. simpl.
  split; [done|]. split; [|done].
  rewrite Hdelayed. f_equal.
  destruct data; [done|]. by destruct (TernarySearchTree.get (data W) uri).
Qed.

Lemma immediate_answer_is_kept_witness :
  let σ := run [RegisterDecorationsProvider absent_provider] empty_world in
  ∃ σ', Wrapper.fetchData 0 ["a"] σ = Ok None σ'
        ∧ onDidChangeDecorationsDelayedEmitter σ' = [].
Proof.
  intros σ.
  destruct (immediate_answer_is_kept 0 ["a"] σ
              (mkWrapper absent_provider ∅ true) None eq_refl eq_refl)
    as (σ' & Hres & _ & Hdelayed & _).
  exists σ'. split; [exact Hres|exact Hdelayed].
Defined.

(** X4: when the promise of the request that a slot still holds is fulfilled,
    the slot takes the value and the identifier is fired once on the delayed
    emitter, also when the value is [undefined]; nothing is published on the
    exposed emitter, nothing is cancelled, no provider is called, and the
    callbacks of the request are gone. *)
Theorem fulfilment_of_current_request (σ : World) (source w : nat) (uri : URI)
    (data : option Decoration) :
  thenables σ !! source = Some (w, uri) →
  TernarySearchTree.get (data_of σ w) uri = Request source →
  ∃ σ',
    promise_fulfilled source data σ = Ok tt σ'
    ∧ data_of σ' w = <[uri := item_of data]> (data_of σ w)
    ∧ (∀ w', w' ≠ w → data_of σ' w' = data_of σ w')
    ∧ onDidChangeDecorationsDelayedEmitter σ'
      = onDidChangeDecorationsDelayedEmitter σ ++ [uri]
    ∧ onDidChangeDecorationsEmitter σ' = onDidChangeDecorationsEmitter σ
    ∧ canceled σ' = canceled σ
    ∧ provided σ' = provided σ
    ∧ thenables σ' = delete source (thenables σ).
Proof.
  intros Hthen Hpending.
  destruct (pending_has_wrapper σ w uri source Hpending) as (W & HW & HWr).
  unfold promise_fulfilled. rewrite Hthen. unfold_monad. simpl.
  change (data_of (with_thenables (delete source) σ) w) with (data_of σ w).
  rewrite Hpending. simpl. rewrite Nat.eqb_refl. simpl.
  change (data_of (with_thenables (delete source) σ) w) with (data_of σ w).
  rewrite Hpending. simpl.
  rewrite orb_true_r. simpl. eexists. split; [reflexivity|].
  split.
  { unfold data_of; simpl. by rewrite lookup_alter_eq, HW. }
  split; [|done].
  intros w' Hne. unfold data_of; simpl. by rewrite lookup_alter_ne.
Qed.

Lemma fulfilment_of_current_request_witness :
  let σ := run [RegisterDecorationsProvider slow_provider;
                GetDecoration ["a"] false] empty_world in
  ∃ σ', promise_fulfilled 0 None σ = Ok tt σ'
        ∧ onDidChangeDecorationsDelayedEmitter σ'
          = onDidChangeDecorationsDelayedEmitter σ ++ [["a"]].
Proof.
  intros σ.
  destruct (fulfilment_of_current_request σ 0 0 ["a"] None eq_refl eq_refl)
    as (σ' & Hres & _ & _ & Hdelayed & _).
  exists σ'. split; [exact Hres|exact Hdelayed].
Defined.

(** ** Pending requests and cancellation *)

Lemma calm_refl σ : calm σ σ.
Proof. done. Qed.

Lemma calm_trans σ1 σ2 σ3 : calm σ1 σ2 → calm σ2 σ3 → calm σ1 σ3.
Proof. intros [? ?] [? ?]. split; congruence. Qed.

Lemma keeps_refl I σ : keeps I σ σ.
Proof. by intros ?. Qed.

Lemma keeps_trans I σ1 σ2 σ3 : keeps I σ1 σ2 → keeps I σ2 σ3 → keeps I σ1 σ3.
Proof. unfold keeps. auto. Qed.

Ltac calm_prim := by intros ?.

Lemma keepItem_calm w uri data : respects calm (Wrapper.keepItem w uri data).
Proof.
  unfold Wrapper.keepItem, data_set, uriEmitter_fire.
  respects_steps calm_refl calm_trans calm_prim.
Qed.

Lemma promise_fulfilled_calm source data :
  respects calm (promise_fulfilled source data).
Proof.
  intros σ. unfold promise_fulfilled.
  destruct (thenables σ !! source) as [[w uri]|]; [|done].
  as_respects. unfold data_get.
  respects_steps calm_refl calm_trans
    ltac:(first [apply keepItem_calm|calm_prim]).
Qed.

Lemma promise_rejected_calm source err :
  respects calm (promise_rejected source err).
Proof.
  intros σ. unfold promise_rejected.
  destruct (thenables σ !! source) as [[w uri]|]; [|done].
  as_respects. unfold data_get, data_delete.
  respects_steps calm_refl calm_trans calm_prim.
Qed.

Lemma registerDecorationsProvider_calm provider :
  respects calm (Service.registerDecorationsProvider provider).
Proof. by intros σ. Qed.

Lemma registration_dispose_calm w :
  respects calm (Service.registration_dispose w).
Proof. by intros σ. Qed.

Lemma flush_calm w : respects calm (Wrapper.onDidChange_listener w None).
Proof. by intros σ. Qed.

Lemma calm_evolves_pending_ok σ σ' :
  pending_ok σ → evolves σ σ' → calm σ σ' → pending_ok σ'.
Proof.
  intros (Hc & Hp & Hu) (_ & Hd & _) [Hnext Hcanceled].
  assert (Hold : ∀ w key r,
    TernarySearchTree.get (data_of σ' w) key = Request r →
    TernarySearchTree.get (data_of σ w) key = Request r).
  { intros w key r Hr. destruct (Hd w key r Hr) as [?|[? _]]; [done|lia]. }
  split; [|split].
  - intros r. rewrite Hcanceled, Hnext. apply Hc.
  - intros w key r Hr. rewrite Hcanceled, Hnext. by apply (Hp w key), Hold.
  - intros w key w' key' r Hr Hr'. apply (Hu w key w' key' r); by apply Hold.
Qed.

Lemma fetchData_canceled w uri σ :
  canceled (world_of (Wrapper.fetchData w uri σ))
  = canceled σ ++ match TernarySearchTree.get (data_of σ w) uri with
                  | Request s => [s]
                  | _ => []
                  end.
Proof.
  destruct (heap σ !! w) as [W|] eqn:HW.
  - destruct (fetchData_spec w uri σ W HW)
      as (_ & _ & _ & _ & _ & _ & Hcanceled & _).
    unfold data_of. by rewrite HW.
  - rewrite (fetchData_missing w uri σ HW). unfold data_of. rewrite HW.
    simpl. by rewrite get_empty, app_nil_r.
Qed.

(** After [fetchData] the only request its slot can hold is the new one, and
    the other slots hold what they held. *)
Lemma fetchData_slot w uri σ w' key r :
  TernarySearchTree.get (data_of (world_of (Wrapper.fetchData w uri σ)) w') key
  = Request r →
  (w' = w ∧ key = uri ∧ r = next_source σ)
  ∨ (¬ (w' = w ∧ key = uri)
     ∧ TernarySearchTree.get (data_of σ w') key = Request r).
Proof.
  destruct (heap σ !! w) as [W|] eqn:HW.
  - destruct (fetchData_spec w uri σ W HW) as (_ & Hheap & _).
    unfold data_of at 1. rewrite Hheap, lookup_insert.
    destruct (decide (w = w')) as [<-|Hne]; simpl.
    + unfold fetched_tree.
      destruct (provideDecorations _ _ _) as [data| |err].
      * rewrite get_insert. destruct (decide (uri = key)) as [<-|].
        -- intros Hr. by apply item_of_not_request in Hr.
        -- intros Hr. right. split; [by intros [_ ->]|].
           unfold data_of. by rewrite HW.
      * rewrite get_insert. destruct (decide (uri = key)) as [<-|].
        -- intros [= <-]. by left.
        -- intros Hr. right. split; [by intros [_ ->]|].
           unfold data_of. by rewrite HW.
      * destruct (TernarySearchTree.get (data W) uri) eqn:Hu.
        -- rewrite get_delete. destruct (decide (uri = key)) as [<-|]; [done|].
           intros Hr. right. split; [by intros [_ ->]|].
           unfold data_of. by rewrite HW.
        -- intros Hr. right. split; [intros [_ ->]; congruence|].
           unfold data_of. by rewrite HW.
        -- intros Hr. right. split; [intros [_ ->]; congruence|].
           unfold data_of. by rewrite HW.
    + intros Hr. right. split; [by intros [-> _]|done].
  - rewrite (fetchData_missing w uri σ HW). intros Hr. right.
    split; [|done]. intros [-> ->]. unfold data_of in Hr. simpl in Hr.
    rewrite HW in Hr. by rewrite get_empty in Hr.
Qed.

Lemma fetchData_pending_ok w uri :
  respects (keeps pending_ok) (Wrapper.fetchData w uri).
Proof.
  intros σ (Hc & Hp & Hu).
  destruct (fetchData_provided w uri σ) as [_ Hnext].
  pose proof (fetchData_canceled w uri σ) as Hcanceled.
  pose proof (fetchData_slot w uri σ) as Hslot.
  set (σ' := world_of (Wrapper.fetchData w uri σ)) in *.
  assert (Hin : ∀ r, r ∈ canceled σ' →
            r ∈ canceled σ
            ∨ TernarySearchTree.get (data_of σ w) uri = Request r).
  { intros r. rewrite Hcanceled, elem_of_app.
    intros [?|Hr]; [by left|right].
    destruct (TernarySearchTree.get (data_of σ w) uri);
      try (by apply elem_of_nil in Hr).
    by apply list_elem_of_singleton in Hr as ->. }
  split; [|split].
  - intros r Hr. rewrite Hnext.
    destruct (Hin r Hr) as [?|Hr']; [by apply Nat.lt_lt_succ_r, Hc|].
    by apply Nat.lt_lt_succ_r, (Hp w uri).
  - intros w' key r Hr. rewrite Hnext.
    destruct (Hslot w' key r Hr) as [(-> & -> & ->)|[Hne Hold]].
    + split; [lia|]. intros Hcan.
      destruct (Hin _ Hcan) as [Hcan'|Hcan'].
      * apply Hc in Hcan'. lia.
      * apply (Hp w uri) in Hcan' as [? _]. lia.
    + destruct (Hp w' key r Hold) as [Hlt Hnot]. split; [lia|].
      intros Hcan. destruct (Hin _ Hcan) as [?|Hcan']; [done|].
      by destruct Hne, (Hu w' key w uri r Hold Hcan').
  - intros w1 key1 w2 key2 r Hr1 Hr2.
    destruct (Hslot w1 key1 r Hr1) as [(E1 & E2 & E3)|[Hne1 Hold1]];
      destruct (Hslot w2 key2 r Hr2) as [(F1 & F2 & F3)|[Hne2 Hold2]].
    + by rewrite E1, E2, F1, F2.
    + apply (Hp w2 key2) in Hold2 as [? _]. lia.
    + apply (Hp w1 key1) in Hold1 as [? _]. lia.
    + by apply (Hu w1 key1 w2 key2 r).
Qed.

Ltac keeps_prim := by (intros ? ?).

Lemma getOrRetrieve_pending_ok {Acc} w uri includeChildren
    (callback : Decoration → bool → Acc → Acc) acc :
  respects (keeps pending_ok)
    (Wrapper.getOrRetrieve w uri includeChildren callback acc).
Proof.
  unfold Wrapper.getOrRetrieve, data_get, data_findSuperstr.
  respects_steps (keeps_refl pending_ok) (keeps_trans pending_ok)
    ltac:(first [apply fetchData_pending_ok|keeps_prim]).
Qed.

Lemma step_pending_ok op σ : pending_ok σ → pending_ok (step op σ).
Proof.
  intros Hok. destruct op as [uri inc|p|w|w [uris|]|source data|source err];
    simpl.
  - revert Hok. unfold Service.getDecoration.
    apply (respects_bind _ (keeps_trans pending_ok)).
    + apply (respects_for_of_acc _ (keeps_refl pending_ok)
               (keeps_trans pending_ok)).
      intros. apply getOrRetrieve_pending_ok.
    + intros. apply (respects_ret _ (keeps_refl pending_ok)).
  - eapply calm_evolves_pending_ok;
      [done|apply registerDecorationsProvider_evolves
      |apply registerDecorationsProvider_calm].
  - eapply calm_evolves_pending_ok;
      [done|apply registration_dispose_evolves|apply registration_dispose_calm].
  - unfold provider_onDidChange_fire.
    destruct (heap σ !! w) as [W|]; [|done].
    destruct (disposable W); [|done]. revert Hok. simpl.
    apply (respects_for_of _ (keeps_refl pending_ok) (keeps_trans pending_ok)).
    intros uri _. apply (respects_bind _ (keeps_trans pending_ok)).
    + apply fetchData_pending_ok.
    + intros. apply (respects_ret _ (keeps_refl pending_ok)).
  - unfold provider_onDidChange_fire.
    destruct (heap σ !! w) as [W|]; [|done].
    destruct (disposable W); [|done].
    eapply calm_evolves_pending_ok;
      [done|apply onDidChange_listener_evolves|apply flush_calm].
  - eapply calm_evolves_pending_ok;
      [done|apply promise_fulfilled_evolves|apply promise_fulfilled_calm].
  - eapply calm_evolves_pending_ok;
      [done|apply promise_rejected_evolves|apply promise_rejected_calm].
Qed.

(** X5: in every world the service can reach, a request that a tree holds
    was never cancelled, its token source is older than the next one, no two
    slots hold the same request, and every cancelled source was created. *)
Theorem pending_requests_are_not_cancelled (σ : World) :
  reachable σ →
  (∀ w key r,
     TernarySearchTree.get (data_of σ w) key = Request r →
     r < next_source σ ∧ r ∉ canceled σ)
  ∧ (∀ w key w' key' r,
       TernarySearchTree.get (data_of σ w) key = Request r →
       TernarySearchTree.get (data_of σ w') key' = Request r →
       w = w' ∧ key = key')
  ∧ (∀ r, r ∈ canceled σ → r < next_source σ).
Proof.
  intros [ops ->].
  assert (∀ σ, pending_ok σ → pending_ok (run ops σ)) as Hrun.
  { unfold run. induction ops as [|op ops IH]; intros σ Hok; simpl; [done|].
    by apply IH, step_pending_ok. }
  destruct (Hrun empty_world) as (Hc & Hp & Hu); [|done].
  split; [|split].
  - intros r Hr. by apply elem_of_nil in Hr.
  - intros w key r. unfold data_of; simpl. by rewrite lookup_empty, get_empty.
  - intros w key w' key' r. unfold data_of; simpl.
    by rewrite lookup_empty, get_empty.
Qed.

Lemma pending_requests_are_not_cancelled_witness :
  let σ := run [RegisterDecorationsProvider slow_provider;
                GetDecoration ["a"] false;
                ProviderDidChange 0 (Some [["a"]])] empty_world in
  TernarySearchTree.get (data_of σ 0) ["a"] = Request 1
  ∧ canceled σ = [0]
  ∧ 1 ∉ canceled σ.
Proof.
  intros σ.
  assert (Hr : TernarySearchTree.get (data_of σ 0) ["a"] = Request 1)
    by reflexivity.
  split; [exact Hr|]. split; [reflexivity|].
  destruct (pending_requests_are_not_cancelled σ) as (Hp & _ & _).
  - by eexists.
  - exact (proj2 (Hp 0 ["a"] 1 Hr)).
Defined.

(** ** Registration and disposal *)

(** X6: in every world the service can reach, the registered wrappers are
    pairwise distinct objects, and each of them is on the heap with a live
    subscription to its provider. *)
Theorem registered_wrappers_are_live (σ : World) :
  reachable σ →
  NoDup (service_data σ)
  ∧ ∀ w, w ∈ service_data σ →
         ∃ W, heap σ !! w = Some W ∧ disposable W = true.
Proof. intros Hreach. by apply reachable_registry_ok. Qed.

Lemma registered_wrappers_are_live_witness :
  let σ := run [RegisterDecorationsProvider slow_provider;
                RegisterDecorationsProvider badge_provider;
                DisposeRegistration 0;
                RegisterDecorationsProvider absent_provider] empty_world in
  service_data σ = [1; 2] ∧ NoDup (service_data σ).
Proof.
  intros σ. split; [reflexivity|].
  apply (registered_wrappers_are_live σ). by eexists.
Defined.


Lemma first_disposal_heap w W σ :
  heap σ !! w = Some W →
  heap (world_of (Service.registration_dispose w σ))
  = <[w := mkWrapper (provider W) ∅ false]> (heap σ).
Proof.
  intros HW. simpl. apply map_eq. intros w'.
  destruct (decide (w = w')) as [<-|Hne].
  - by rewrite !lookup_alter_eq, lookup_insert_eq, HW.
  - by rewrite !lookup_alter_ne, lookup_insert_ne.
Qed.

(** X8: the first disposal of a registration takes exactly its wrapper out of
    the array and keeps the order of the others, publishes one event for that
    wrapper, empties the tree of the wrapper and ends its subscription; the
    pending requests of the tree are not cancelled and no provider is
    called. *)
Theorem first_disposal_removes_the_wrapper (σ : World) (w : nat) :
  reachable σ →
  w ∈ service_data σ →
  ∃ before after W σ',
    service_data σ = before ++ w :: after
    ∧ heap σ !! w = Some W
    ∧ Service.registration_dispose w σ = Ok tt σ'
    ∧ service_data σ' = before ++ after
    ∧ (w ∉ service_data σ')
    ∧ heap σ' = <[w := mkWrapper (provider W) ∅ false]> (heap σ)
    ∧ onDidChangeDecorationsEmitter σ'
      = onDidChangeDecorationsEmitter σ ++ [AffectsKnownTo w]
    ∧ canceled σ' = canceled σ
    ∧ provided σ' = provided σ.
Proof.
  intros Hreach Hin.
  destruct (reachable_registry_ok σ Hreach) as [Hnd Hreg].
  destruct (Hreg w Hin) as (W & HW & _).
  destruct (splice_indexOf (service_data σ) w)
    as [(before & after & Hsplit & Hbefore & Hsplice)|[Hnotin _]]; [|done].
  exists before, after, W, (world_of (Service.registration_dispose w σ)).
  split; [done|]. split; [done|]. split; [done|].
  split; [exact Hsplice|]. split.
  { simpl. by apply splice_indexOf_removes. }
  split; [by apply first_disposal_heap|done].
Qed.

Lemma first_disposal_removes_the_wrapper_witness :
  let σ := run [RegisterDecorationsProvider slow_provider;
                RegisterDecorationsProvider badge_provider;
                RegisterDecorationsProvider absent_provider] empty_world in
  service_data σ = [0; 1; 2]
  ∧ service_data (world_of (Service.registration_dispose 1 σ)) = [0; 2]
  ∧ ∃ before after W σ',
      service_data σ = before ++ 1 :: after
      ∧ heap σ !! 1 = Some W
      ∧ Service.registration_dispose 1 σ = Ok tt σ'
      ∧ service_data σ' = before ++ after
      ∧ (1 ∉ service_data σ')
      ∧ heap σ' = <[1 := mkWrapper (provider W) ∅ false]> (heap σ)
      ∧ onDidChangeDecorationsEmitter σ'
        = onDidChangeDecorationsEmitter σ ++ [AffectsKnownTo 1]
      ∧ canceled σ' = canceled σ
      ∧ provided σ' = provided σ.
Proof.
  intros σ. split; [reflexivity|]. split; [reflexivity|].
  apply (first_disposal_removes_the_wrapper σ 1).
  - by eexists.
  - right. left.
Defined.

Lemma knowsAbout_empty provider subscribed uri :
  Wrapper.knowsAbout (mkWrapper provider ∅ subscribed) uri = false.
Proof.
  unfold Wrapper.knowsAbout. simpl. rewrite get_empty. simpl.
  apply bool_decide_eq_false. rewrite findSuperstr_is_Some.
  intros (k & item & _ & Hk). by rewrite lookup_empty in Hk.
Qed.

(** X9: the event that a disposal publishes asks the wrapper itself.  While
    the event is fired, before the wrapper is disposed, [affectsResource]
    answers what [knowsAbout] answered before the disposal; once the disposal
    has returned, the tree is empty and it answers false for every
    identifier. *)
Theorem disposal_event_asks_the_wrapper
    (σ : World) (w : nat) (W : DecorationProviderWrapper) :
  heap σ !! w = Some W →
  Service.registration_dispose w σ
  = Wrapper.dispose w (registration_dispose_firing w σ)
  ∧ last (onDidChangeDecorationsEmitter (registration_dispose_firing w σ))
    = Some (AffectsKnownTo w)
  ∧ (∀ uri, affectsResource (registration_dispose_firing w σ)
              (AffectsKnownTo w) uri
            = Wrapper.knowsAbout W uri)
  ∧ (∀ uri, affectsResource (world_of (Service.registration_dispose w σ))
              (AffectsKnownTo w) uri
            = false).
Proof.
  intros HW. split; [done|]. split; [apply last_snoc|]. split.
  - intros uri. simpl. by rewrite HW.
  - intros uri. unfold affectsResource.
    rewrite (first_disposal_heap w W σ HW), lookup_insert_eq.
    apply knowsAbout_empty.
Qed.

Lemma disposal_event_asks_the_wrapper_witness :
  let σ := run [RegisterDecorationsProvider badge_provider;
                GetDecoration ["a"] false] empty_world in
  affectsResource (registration_dispose_firing 0 σ) (AffectsKnownTo 0) ["a"]
  = true
  ∧ affectsResource (world_of (Service.registration_dispose 0 σ))
      (AffectsKnownTo 0) ["a"] = false.
Proof.
  intros σ.
  destruct (disposal_event_asks_the_wrapper σ 0
              (mkWrapper badge_provider {[ ["a"] := Deco badge ]} true)
              eq_refl) as (_ & _ & Hfiring & Hafter).
  split; [|apply Hafter].
  rewrite Hfiring. reflexivity.
Defined.

(** X10: disposing a handle whose wrapper is not in the array, as a second
    disposal does, removes the last wrapper of the array, whichever it is,
    and publishes an event for the wrapper of the handle. *)
Theorem stale_disposal_removes_the_last_wrapper (σ : World) (w : nat) :
  w ∉ service_data σ →
  ∃ σ',
    Service.registration_dispose w σ = Ok tt σ'
    ∧ service_data σ'
      = take (length (service_data σ) - 1) (service_data σ)
    ∧ onDidChangeDecorationsEmitter σ'
      = onDidChangeDecorationsEmitter σ ++ [AffectsKnownTo w].
Proof.
  intros Hnotin. eexists. split; [reflexivity|]. simpl. split; [|done].
  by destruct (splice_indexOf (service_data σ) w)
    as [(before & after & Hsplit & _)|[_ Hsplice]];
    [destruct Hnotin; rewrite Hsplit; apply elem_of_app; right; left|].
Qed.

Lemma stale_disposal_removes_the_last_wrapper_witness :
  let σ := run [RegisterDecorationsProvider slow_provider;
                RegisterDecorationsProvider badge_provider;
                RegisterDecorationsProvider absent_provider;
                DisposeRegistration 0] empty_world in
  service_data σ = [1; 2]
  ∧ ∃ σ', Service.registration_dispose 0 σ = Ok tt σ'
          ∧ service_data σ' = [1].
Proof.
  intros σ. split; [reflexivity|].
  destruct (stale_disposal_removes_the_last_wrapper σ 0)
    as (σ' & Hres & Hdata & _).
  - vm_compute. intros Hin. inversion Hin as [|? ? ? Hin']; subst.
    inversion Hin' as [|? ? ? Hin'']; subst. inversion Hin''.
  - exists σ'. split; [exact Hres|]. rewrite Hdata. reflexivity.
Defined.

(** X11: once a registration is disposed, the change notifications of its
    provider reach no listener: they leave the world as it is. *)
Theorem disposed_wrapper_ignores_notifications
    (σ : World) (w : nat) (uris : option (list URI)) :
  let σ' := world_of (Service.registration_dispose w σ) in
  provider_onDidChange_fire w uris σ' = Ok tt σ'.
Proof.
  simpl. unfold provider_onDidChange_fire. simpl.
  rewrite !lookup_alter_eq. by destruct (heap σ !! w).
Qed.

(** ** Abandoned requests *)

Lemma reachable_thenables_lt σ r c :
  reachable σ → thenables σ !! r = Some c → r < next_source σ.
Proof.
  intros [ops ->] Hc. destruct c as [w key].
  destruct (run_evolves ops empty_world) as (_ & _ & Ht).
  destruct (Ht r w key Hc) as [Hinit|?]; [|lia].
  simpl in Hinit. by rewrite lookup_empty in Hinit.
Qed.

Lemma cleared_superseded σ r :
  r < next_source σ →
  (∀ w key, thenables σ !! r = Some (w, key) → data_of σ w = ∅) →
  superseded r σ.
Proof.
  intros Hlt Hcleared. split; [done|]. intros w key Hc.
  by rewrite (Hcleared w key Hc), get_empty.
Qed.

(** X12: the requests that a flush or a disposal drops from the tree are
    abandoned, not cancelled: no token source is cancelled, and from then on,
    whatever else happens to the service, the fulfilment or the rejection of
    the promise of such a request changes no tree and fires no event. *)
Theorem abandoned_requests_never_write
    (σ : World) (r w : nat) (uri : URI) (op : Op) :
  reachable σ →
  thenables σ !! r = Some (w, uri) →
  op = DisposeRegistration w
  ∨ (op = ProviderDidChange w None ∧ w ∈ service_data σ) →
  let σ1 := step op σ in
  data_of σ1 w = ∅
  ∧ canceled σ1 = canceled σ
  ∧ ∀ ops',
      let σ2 := run ops' σ1 in
      (∀ data, observable (step (PromiseFulfilled r data) σ2) = observable σ2)
      ∧ (∀ err, observable (step (PromiseRejected r err) σ2) = observable σ2).
Proof.
  intros Hreach Hthen Hop σ1.
  assert (Hfacts : data_of σ1 w = ∅ ∧ canceled σ1 = canceled σ
                   ∧ thenables σ1 = thenables σ
                   ∧ next_source σ1 = next_source σ).
  { destruct Hop as [->|[-> Hin]].
    - subst σ1. simpl. split; [|done]. unfold data_of; simpl.
      rewrite !lookup_alter_eq. by destruct (heap σ !! w).
    - destruct (reachable_registry_ok σ Hreach) as [_ Hreg].
      destruct (Hreg w Hin) as (W & HW & Hd).
      subst σ1. simpl. unfold provider_onDidChange_fire. rewrite HW, Hd.
      simpl. split; [|done]. unfold data_of; simpl.
      by rewrite lookup_alter_eq, HW. }
  destruct Hfacts as (Hempty & Hcanceled & Hthen1 & Hnext).
  split; [done|]. split; [done|]. intros ops' σ2.
  assert (superseded r σ2) as Hsup.
  { eapply evolves_superseded; [|apply run_evolves].
    apply cleared_superseded.
    - rewrite Hnext. by eapply reachable_thenables_lt.
    - intros w' key. rewrite Hthen1, Hthen. by intros [= <- <-]. }
  split; intros; [by apply superseded_fulfilled|by apply superseded_rejected].
Qed.

Lemma abandoned_requests_never_write_witness :
  let σ := run [RegisterDecorationsProvider slow_provider;
                GetDecoration ["a"] false] empty_world in
  let σ1 := step (ProviderDidChange 0 None) σ in
  thenables σ !! 0 = Some (0, ["a"])
  ∧ canceled σ1 = canceled σ
  ∧ observable (step (PromiseFulfilled 0 (Some badge)) σ1) = observable σ1.
Proof.
  intros σ σ1.
  assert (H1 : thenables σ !! 0 = Some (0, ["a"])) by reflexivity.
  split; [exact H1|].
  destruct (abandoned_requests_never_write σ 0 0 ["a"]
              (ProviderDidChange 0 None)) as (_ & Hcanceled & Hdead).
  - by eexists.
  - exact H1.
  - right. split; [reflexivity|]. left.
  - split; [exact Hcanceled|]. exact (proj1 (Hdead []) (Some badge)).
Defined.

(** X13: after a flush every query refetches: the next query of an
    identifier at the flushed wrapper calls its provider, whatever the tree
    held for the identifier before the flush. *)
Theorem flush_makes_the_next_query_fetch
    (σ : World) (w : nat) (uri : URI) (includeChildren : bool) :
  reachable σ →
  w ∈ service_data σ →
  let σ1 := step (ProviderDidChange w None) σ in
  provided σ1 = provided σ
  ∧ provided (world_of (Wrapper.getOrRetrieve w uri includeChildren
                          Service.collect ([], false) σ1))
    = provided σ1 ++ [(w, uri, next_source σ1)].
Proof.
  intros Hreach Hin σ1.
  destruct (reachable_registry_ok σ Hreach) as [_ Hreg].
  destruct (Hreg w Hin) as (W & HW & Hd).
  assert (Hempty : data_of σ1 w = ∅ ∧ provided σ1 = provided σ).
  { subst σ1. simpl. unfold provider_onDidChange_fire. rewrite HW, Hd.
    simpl. split; [|done]. unfold data_of; simpl.
    by rewrite lookup_alter_eq, HW. }
  destruct Hempty as [Hempty Hprov]. split; [done|].
  rewrite getOrRetrieve_world, Hempty, get_empty.
  apply fetchData_provided.
Qed.

Lemma flush_makes_the_next_query_fetch_witness :
  let σ := run [RegisterDecorationsProvider badge_provider;
                GetDecoration ["a"] false] empty_world in
  let σ1 := step (ProviderDidChange 0 None) σ in
  data_of σ 0 !! ["a"] = Some (Deco badge)
  ∧ provided (world_of (Wrapper.getOrRetrieve 0 ["a"] false
                          Service.collect ([], false) σ1))
    = provided σ1 ++ [(0, ["a"], next_source σ1)].
Proof.
  intros σ σ1. split; [reflexivity|].
  apply (flush_makes_the_next_query_fetch σ 0 ["a"] false).
  - by eexists.
  - left.
Defined.

(** ** knowsAbout along the hierarchy *)

Lemma is_descendant_spec key candidate :
  is_descendant key candidate = true
  ↔ key `prefix_of` candidate ∧ key ≠ candidate.
Proof.
  unfold is_descendant.
  rewrite andb_true_iff, bool_decide_eq_true, negb_true_iff,
    bool_decide_eq_false. done.
Qed.

Lemma is_descendant_trans a b c :
  is_descendant a b = true → is_descendant b c = true →
  is_descendant a c = true.
Proof.
  rewrite !is_descendant_spec. intros [Hab Hne] [Hbc Hne'].
  split; [by etrans|]. intros ->.
  apply Hne'. by apply (anti_symm prefix).
Qed.

(** X14: a wrapper that knows about an identifier knows about every strict
    ancestor of it. *)
Theorem knowsAbout_reaches_ancestors
    (W : DecorationProviderWrapper) (ancestor id : URI) :
  is_descendant ancestor id = true →
  Wrapper.knowsAbout W id = true →
  Wrapper.knowsAbout W ancestor = true.
Proof.
  intros Hanc. unfold Wrapper.knowsAbout.
  rewrite !orb_true_iff, !bool_decide_eq_true, !findSuperstr_is_Some.
  intros [Hid|(k & item & Hk & Hlook)]; right.
  - unfold TernarySearchTree.get in Hid.
    destruct (data W !! id) as [item|] eqn:Hlook; [|done].
    by exists id, item.
  - exists k, item. split; [|done]. by eapply is_descendant_trans.
Qed.

Lemma knowsAbout_reaches_ancestors_witness :
  let W := mkWrapper badge_provider {[ ["a"; "b"; "c"] := Request 4 ]} true in
  Wrapper.knowsAbout W ["a"; "b"; "c"] = true
  ∧ Wrapper.knowsAbout W ["a"] = true.
Proof.
  intros W.
  assert (H : Wrapper.knowsAbout W ["a"; "b"; "c"] = true) by reflexivity.
  split; [exact H|].
  exact (knowsAbout_reaches_ancestors W ["a"] ["a"; "b"; "c"] eq_refl H).
Defined.

(** ** What a query leaves alone *)

Lemma same_canceled_refl σ : same_canceled σ σ.
Proof. done. Qed.

Lemma same_canceled_trans σ1 σ2 σ3 :
  same_canceled σ1 σ2 → same_canceled σ2 σ3 → same_canceled σ1 σ3.
Proof. unfold same_canceled. congruence. Qed.

Lemma getOrRetrieve_same_canceled {Acc} w uri includeChildren
    (callback : Decoration → bool → Acc → Acc) acc :
  respects same_canceled
    (Wrapper.getOrRetrieve w uri includeChildren callback acc).
Proof.
  intros σ. unfold same_canceled. rewrite getOrRetrieve_world.
  destruct (TernarySearchTree.get (data_of σ w) uri) eqn:Hget; try done.
  by rewrite fetchData_canceled, Hget, app_nil_r.
Qed.

(** X15: a query never cancels a pending request, never publishes on the
    exposed emitter and never changes the array of wrappers, their providers
    or their subscriptions; in the trees it can only change the slot of the
    queried identifier, and only in the trees of registered wrappers. *)
Theorem query_leaves_the_rest_alone
    (σ : World) (uri : URI) (includeChildren : bool) :
  let σ' := world_of (Service.getDecoration uri includeChildren σ) in
  service_data σ' = service_data σ
  ∧ (∀ w, (λ W, (provider W, disposable W)) <$> heap σ' !! w
          = (λ W, (provider W, disposable W)) <$> heap σ !! w)
  ∧ (∀ w key, (w ∉ service_data σ) ∨ key ≠ uri →
       data_of σ' w !! key = data_of σ w !! key)
  ∧ onDidChangeDecorationsEmitter σ' = onDidChangeDecorationsEmitter σ
  ∧ canceled σ' = canceled σ.
Proof.
  intros σ'.
  destruct (getDecoration_same_wrappers uri includeChildren σ) as [Hsd Hw].
  split; [exact Hsd|]. split; [exact Hw|]. split; [|split].
  - assert (touches_only (service_data σ) [uri] σ σ') as Hframe.
    { subst σ'. unfold Service.getDecoration, URI_reparse.
      apply (respects_bind _ (touches_only_trans (service_data σ) [uri])).
      - apply getDecoration_loop_touches.
      - intros. apply (respects_ret _ (touches_only_refl _ _)). }
    intros w key Hk. apply Hframe. destruct Hk as [?|Hne]; [by left|].
    right. intros Hin. by apply list_elem_of_singleton in Hin.
  - apply getDecoration_same_published.
  - subst σ'. unfold Service.getDecoration.
    apply (respects_bind _ same_canceled_trans).
    + apply (respects_for_of_acc _ same_canceled_refl same_canceled_trans).
      intros. apply getOrRetrieve_same_canceled.
    + intros. apply (respects_ret _ same_canceled_refl).
Qed.

(** ** Whom a query calls *)

Lemma getOrRetrieve_calls {Acc} w uri includeChildren
    (callback : Decoration → bool → Acc → Acc) acc σ :
  let σ' := world_of (Wrapper.getOrRetrieve w uri includeChildren
                        callback acc σ) in
  provided σ'
  = provided σ ++ (if unknown_to σ uri w then [(w, uri, next_source σ)] else [])
  ∧ next_source σ'
    = next_source σ + (if unknown_to σ uri w then 1 else 0).
Proof.
  simpl. rewrite getOrRetrieve_world. unfold unknown_to.
  destruct (TernarySearchTree.get (data_of σ w) uri); simpl.
  - by rewrite app_nil_r, Nat.add_0_r.
  - by rewrite app_nil_r, Nat.add_0_r.
  - destruct (fetchData_provided w uri σ) as [-> ->]. split; [done|lia].
Qed.

Lemma filter_unknown_to σ σ' uri (ws : list nat) :
  (∀ w, w ∈ ws → data_of σ' w = data_of σ w) →
  filter (λ w, unknown_to σ' uri w = true) ws
  = filter (λ w, unknown_to σ uri w = true) ws.
Proof.
  induction ws as [|w ws IH]; intros Hsame; [done|].
  assert (unknown_to σ' uri w = unknown_to σ uri w) as Hw.
  { unfold unknown_to. rewrite (Hsame w); [done|left]. }
  rewrite !filter_cons, Hw, IH; [done|].
  intros w' Hin. apply Hsame. by right.
Qed.

Lemma getDecoration_loop_calls uri includeChildren ws :
  NoDup ws → ∀ vars σ,
  let r := for_of_acc ws (λ wrapper vars,
             Wrapper.getOrRetrieve wrapper uri includeChildren
               Service.collect vars) vars σ in
  ∃ n, n ≤ length ws
    ∧ provided (world_of r)
      = provided σ
        ++ imap (λ i w, (w, uri, next_source σ + i))
             (filter (λ w, unknown_to σ uri w = true) (take n ws))
    ∧ next_source (world_of r)
      = next_source σ
        + length (filter (λ w, unknown_to σ uri w = true) (take n ws))
    ∧ match r with
      | Ok _ _ => n = length ws
      | Throw err _ =>
          ∃ i w W,
            n = S i ∧ ws !! i = Some w
            ∧ unknown_to σ uri w = true
            ∧ heap σ !! w = Some W
            ∧ provideDecorations (provider W) uri
                (next_source σ
                 + length (filter (λ w, unknown_to σ uri w = true)
                             (take i ws)))
              = Throws err
      end.
Proof.
  induction 1 as [|w ws Hnotin Hnd IH]; intros vars σ r.
  { exists 0. simpl. by rewrite app_nil_r, Nat.add_0_r. }
  assert (Hr : r = match Wrapper.getOrRetrieve w uri includeChildren
                           Service.collect vars σ with
                   | Ok vars1 σ1 =>
                       for_of_acc ws (λ wrapper vars,
                         Wrapper.getOrRetrieve wrapper uri includeChildren
                           Service.collect vars) vars1 σ1
                   | Throw err σ1 => Throw err σ1
                   end) by done.
  clearbody r. subst r.
  destruct (getOrRetrieve_calls w uri includeChildren Service.collect vars σ)
    as [Hprov Hnext].
  pose proof (getOrRetrieve_touches_only w uri includeChildren
                Service.collect vars σ) as Hframe.
  pose proof (getOrRetrieve_same_wrappers w uri includeChildren
                Service.collect vars σ) as Hsame.
  pose proof (getOrRetrieve_spec w uri includeChildren Service.collect vars σ)
    as Hspec.
  destruct (Wrapper.getOrRetrieve w uri includeChildren Service.collect vars σ)
    as [vars1 σ1|err σ1]; simpl in Hprov, Hnext, Hframe, Hsame.
  - destruct (IH vars1 σ1) as (n & Hn & Hcalls & Hnext' & Hend).
    assert (Hother : ∀ w', w' ∈ ws → data_of σ1 w' = data_of σ w').
    { intros w' Hin.
      apply (touches_only_data_of [w] [uri] σ σ1 w' Hframe).
      intros Hw. apply list_elem_of_singleton in Hw as ->. by apply Hnotin. }
    assert (Hfilter : ∀ m,
      filter (λ w, unknown_to σ1 uri w = true) (take m ws)
      = filter (λ w, unknown_to σ uri w = true) (take m ws)).
    { intros m. apply filter_unknown_to. intros w' Hin.
      apply Hother. by apply (subseteq_take m). }
    rewrite Hfilter in Hcalls, Hnext'.
    exists (S n). split; [simpl; lia|].
    assert (Hthrower :
      match for_of_acc ws (λ wrapper vars,
              Wrapper.getOrRetrieve wrapper uri includeChildren
                Service.collect vars) vars1 σ1 with
      | Ok _ _ => S n = length (w :: ws)
      | Throw err _ =>
          ∃ i w0 W,
            S n = S i ∧ (w :: ws) !! i = Some w0
            ∧ unknown_to σ uri w0 = true
            ∧ heap σ !! w0 = Some W
            ∧ provideDecorations (provider W) uri
                (next_source σ
                 + length (filter (λ w, unknown_to σ uri w = true)
                             (take i (w :: ws))))
              = Throws err
      end).
    { destruct (for_of_acc ws _ vars1 σ1) as [|err σ2]; [simpl; lia|].
      destruct Hend as (i & w0 & W1 & -> & Hi & Hunk & HW1 & Hthrows).
      assert (w0 ∈ ws) as Hin by (by eapply list_elem_of_lookup_2).
      destruct (same_wrappers_provider σ σ1 w0 W1 Hsame HW1)
        as (W & HW & Hp).
      exists (S i), w0, W. split; [done|]. split; [done|]. split.
      { unfold unknown_to in *. by rewrite <- (Hother w0 Hin). }
      split; [done|].
      rewrite Hp. rewrite Hfilter in Hthrows.
      rewrite firstn_cons, filter_cons.
      destruct (unknown_to σ uri w) eqn:Hunknown.
      - rewrite decide_True by done. simpl.
        rewrite Hnext in Hthrows.
        by replace (next_source σ + S (length (filter
                      (λ w, unknown_to σ uri w = true) (take i ws))))
          with (next_source σ + 1 + length (filter
                      (λ w, unknown_to σ uri w = true) (take i ws))) by lia.
      - rewrite decide_False by done.
        rewrite Nat.add_0_r in Hnext. by rewrite Hnext in Hthrows. }
    rewrite firstn_cons, filter_cons.
    destruct (unknown_to σ uri w) eqn:Hunknown.
    + rewrite decide_True by done. split; [|split; [|exact Hthrower]].
      * rewrite Hcalls, Hprov, <- app_assoc. simpl. rewrite Nat.add_0_r.
        do 2 f_equal. apply imap_ext. intros i x _. simpl. f_equal.
        rewrite Hnext. lia.
      * rewrite Hnext', Hnext. simpl. lia.
    + rewrite decide_False by done. rewrite app_nil_r in Hprov.
      rewrite Nat.add_0_r in Hnext. rewrite Hnext, Hprov in *.
      split; [done|]. split; [done|exact Hthrower].
  - destruct Hspec as [Hundef Hfetch].
    assert (unknown_to σ uri w = true) as Hunknown.
    { unfold unknown_to. by rewrite Hundef. }
    rewrite Hunknown in Hprov, Hnext.
    apply fetchData_throws in Hfetch as (W & HW & Hthrows).
    exists 1. split; [simpl; lia|].
    rewrite firstn_cons, take_0, filter_cons, decide_True by done.
    rewrite filter_nil. simpl. rewrite Nat.add_0_r.
    split; [done|]. split; [done|].
    exists 0, w, W. simpl. by rewrite Nat.add_0_r.
Qed.

(** X16: a query calls [provideDecorations] once for each registered wrapper
    whose slot for the identifier answers [undefined] (unknown or settled
    absent) and for no other, in the order of registration, with the queried
    identifier and a token source of its own.  When the query returns, every
    registered wrapper was visited; when it throws, the last wrapper visited
    is one whose slot answered [undefined] and whose provider threw that
    error at this call, and the wrappers registered after it were not
    called. *)
Theorem query_calls_the_unknowing_providers
    (σ : World) (uri : URI) (includeChildren : bool) :
  reachable σ →
  let r := Service.getDecoration uri includeChildren σ in
  ∃ n, n ≤ length (service_data σ)
    ∧ provided (world_of r)
      = provided σ
        ++ imap (λ i w, (w, uri, next_source σ + i))
             (filter (λ w, unknown_to σ uri w = true)
                (take n (service_data σ)))
    ∧ match r with
      | Ok _ _ => n = length (service_data σ)
      | Throw err _ =>
          ∃ i w W,
            n = S i ∧ service_data σ !! i = Some w
            ∧ unknown_to σ uri w = true
            ∧ heap σ !! w = Some W
            ∧ provideDecorations (provider W) uri
                (next_source σ
                 + length (filter (λ w, unknown_to σ uri w = true)
                             (take i (service_data σ))))
              = Throws err
      end.
Proof.
  intros Hreach r.
  destruct (reachable_registry_ok σ Hreach) as [Hnd _].
  destruct (getDecoration_loop_calls uri includeChildren (service_data σ) Hnd
              ([], false) σ) as (n & Hn & Hcalls & _ & Hend).
  exists n. split; [done|]. subst r.
  unfold Service.getDecoration, URI_reparse, bind.
  destruct (for_of_acc _ _ _ σ) as [vars σ'|err σ']; by split.
Qed.

Lemma query_calls_the_unknowing_providers_witness :
  let σ := run [RegisterDecorationsProvider badge_provider;
                GetDecoration ["a"] false;
                RegisterDecorationsProvider absent_provider;
                RegisterDecorationsProvider slow_provider] empty_world in
  let τ := run [RegisterDecorationsProvider badge_provider;
                RegisterDecorationsProvider failing_provider;
                RegisterDecorationsProvider absent_provider] empty_world in
  provided (world_of (Service.getDecoration ["a"] false σ))
  = provided σ ++ [(1, ["a"], 1); (2, ["a"], 2)]
  ∧ provided (world_of (Service.getDecoration ["a"] false τ))
    = [(0, ["a"], 0); (1, ["a"], 1)]
  ∧ ∃ n, n ≤ length (service_data τ)
      ∧ provided (world_of (Service.getDecoration ["a"] false τ))
        = provided τ
          ++ imap (λ i w, (w, ["a"], next_source τ + i))
               (filter (λ w, unknown_to τ ["a"] w = true)
                  (take n (service_data τ)))
      ∧ match Service.getDecoration ["a"] false τ with
        | Ok _ _ => n = length (service_data τ)
        | Throw err _ =>
            ∃ i w W,
              n = S i ∧ service_data τ !! i = Some w
              ∧ unknown_to τ ["a"] w = true
              ∧ heap τ !! w = Some W
              ∧ provideDecorations (provider W) ["a"]
                  (next_source τ
                   + length (filter (λ w, unknown_to τ ["a"] w = true)
                               (take i (service_data τ))))
                = Throws err
        end.
Proof.
  intros σ τ. split; [|split].
  - destruct (query_calls_the_unknowing_providers σ ["a"] false)
      as (n & Hn & Hcalls & Hend); [by eexists|].
    assert (Hok : match Service.getDecoration ["a"] false σ with
                   | Ok _ _ => True
                   | Throw _ _ => False
                   end) by (vm_compute; exact I).
    simpl in Hcalls, Hend.
    destruct (Service.getDecoration ["a"] false σ) as [result σ'|]; [|done].
    rewrite Hcalls, Hend. reflexivity.
  - vm_compute. reflexivity.
  - apply (query_calls_the_unknowing_providers τ ["a"] false). by eexists.
Defined.

(** ** Asynchronous and failing fetches *)

(** X17: when the provider returns a promise, [fetchData] answers
    [undefined] and the slot holds a new pending request with the token
    source of the call, whatever it held before: a decoration that was cached
    is dropped at once and a request that was pending is cancelled; the
    callbacks of the new request wait, and nothing is fired. *)
Theorem promised_answer_becomes_pending (w : nat) (uri : URI) (σ : World)
    (W : DecorationProviderWrapper) :
  heap σ !! w = Some W →
  provideDecorations (provider W) uri (next_source σ) = Thenable →
  ∃ σ',
    Wrapper.fetchData w uri σ = Ok None σ'
    ∧ data_of σ' w = <[uri := Request (next_source σ)]> (data_of σ w)
    ∧ thenables σ' = <[next_source σ := (w, uri)]> (thenables σ)
    ∧ canceled σ'
      = canceled σ ++ match TernarySearchTree.get (data_of σ w) uri with
                      | Request s => [s]
                      | _ => []
                      end
    ∧ onDidChangeDecorationsDelayedEmitter σ'
      = onDidChangeDecorationsDelayedEmitter σ
    ∧ onDidChangeDecorationsEmitter σ' = onDidChangeDecorationsEmitter σ.
Proof.
  intros HW Hanswer.
  destruct (fetchData_spec w uri σ W HW)
    as (Hres & Hheap & _ & Hdelayed & Hexposed & _ & Hcanceled & Hthen & _).
  rewrite Hanswer in *. eexists. split; [exact Hres|].
  unfold data_of at 1 2 3. rewrite Hheap, lookup_insert_eq, HW. simpl.
  split; [done|]. split; [done|]. split; [done|]. split; [|done].
  by rewrite Hdelayed, app_nil_r.
Qed.

Lemma promised_answer_becomes_pending_witness :
  let σ := run [RegisterDecorationsProvider slow_provider;
                GetDecoration ["a"] false;
                PromiseFulfilled 0 (Some badge)] empty_world in
  data_of σ 0 !! ["a"] = Some (Deco badge)
  ∧ ∃ σ', Wrapper.fetchData 0 ["a"] σ = Ok None σ'
          ∧ data_of σ' 0 = <[ ["a"] := Request 1 ]> (data_of σ 0).
Proof.
  intros σ. split; [reflexivity|].
  destruct (promised_answer_becomes_pending 0 ["a"] σ
              (mkWrapper slow_provider {[ ["a"] := Deco badge ]} true)
              eq_refl eq_refl) as (σ' & Hres & Hdata & _).
  exists σ'. split; [exact Hres|exact Hdata].
Defined.

(** X18: when the provider throws, [fetchData] throws what it threw.  By
    then a request that was pending in the slot is cancelled and removed; a
    settled entry is left in the slot; nothing is installed or fired, and the
    token source made for the call is spent. *)
Theorem throwing_provider_leaves_no_request (w : nat) (uri : URI) (σ : World)
    (W : DecorationProviderWrapper) (err : JsError) :
  heap σ !! w = Some W →
  provideDecorations (provider W) uri (next_source σ) = Throws err →
  ∃ σ',
    Wrapper.fetchData w uri σ = Throw err σ'
    ∧ data_of σ' w
      = match TernarySearchTree.get (data_of σ w) uri with
        | Request _ => delete uri (data_of σ w)
        | _ => data_of σ w
        end
    ∧ canceled σ'
      = canceled σ ++ match TernarySearchTree.get (data_of σ w) uri with
                      | Request s => [s]
                      | _ => []
                      end
    ∧ thenables σ' = thenables σ
    ∧ onDidChangeDecorationsDelayedEmitter σ'
      = onDidChangeDecorationsDelayedEmitter σ
    ∧ onDidChangeDecorationsEmitter σ' = onDidChangeDecorationsEmitter σ
    ∧ next_source σ' = S (next_source σ).
Proof.
  intros HW Hanswer.
  destruct (fetchData_spec w uri σ W HW)
    as (Hres & Hheap & _ & Hdelayed & Hexposed & Hnext & Hcanceled & Hthen & _).
  rewrite Hanswer in *. eexists. split; [exact Hres|].
  assert (Hd : data_of σ w = data W) by (unfold data_of; by rewrite HW).
  assert (Hd' : data_of (world_of (Wrapper.fetchData w uri σ)) w
                = fetched_tree (data W) uri (next_source σ) (Throws err))
    by (unfold data_of; by rewrite Hheap, lookup_insert_eq).
  rewrite Hd, Hd'. unfold fetched_tree.
  split; [by destruct (TernarySearchTree.get (data W) uri)|].
  split; [done|]. split; [done|]. split; [|done].
  by rewrite Hdelayed, app_nil_r.
Qed.

Lemma throwing_provider_leaves_no_request_witness :
  let σ := run [RegisterDecorationsProvider failing_provider] empty_world in
  ∃ σ', Wrapper.fetchData 0 ["a"] σ = Throw boom σ'
        ∧ next_source σ' = 1.
Proof.
  intros σ.
  destruct (throwing_provider_leaves_no_request 0 ["a"] σ
              (mkWrapper failing_provider ∅ true) boom eq_refl eq_refl)
    as (σ' & Hres & _ & _ & _ & _ & _ & Hnext).
  exists σ'. split; [exact Hres|exact Hnext].
Defined.

(** ** Registering and disposing at once *)

Lemma splice_indexOf_last xs w :
  w ∉ xs → splice (xs ++ [w]) (indexOf (xs ++ [w]) w) 1 = xs.
Proof.
  intros Hnotin. unfold indexOf.
  rewrite (indexOf_from_first xs w [] 0 Hnotin). simpl.
  by rewrite splice_first, app_nil_r.
Qed.

(** X19: registering a provider and disposing the returned handle leaves the
    array of wrappers as it was and the wrappers that were there untouched;
    the exposed emitter has the two events of the registration and of the
    disposal, and no provider was called. *)
Theorem register_then_dispose_restores_the_array
    (σ : World) (provider : DecorationsProvider) :
  reachable σ →
  ∃ w σ1 σ2,
    Service.registerDecorationsProvider provider σ = Ok w σ1
    ∧ Service.registration_dispose w σ1 = Ok tt σ2
    ∧ service_data σ2 = service_data σ
    ∧ (∀ w', w' ≠ w → heap σ2 !! w' = heap σ !! w')
    ∧ heap σ !! w = None
    ∧ onDidChangeDecorationsEmitter σ2
      = onDidChangeDecorationsEmitter σ
        ++ [AffectsEverything; AffectsKnownTo w]
    ∧ provided σ2 = provided σ.
Proof.
  intros Hreach.
  destruct (reachable_registry_ok σ Hreach) as [_ Hreg].
  set (w := fresh (dom (heap σ))).
  assert (Hfresh : heap σ !! w = None) by apply not_elem_of_dom, is_fresh.
  assert (Hnotin : w ∉ service_data σ).
  { intros Hin. destruct (Hreg w Hin) as (W & HW & _). congruence. }
  eexists w, _, _. split; [reflexivity|]. split; [reflexivity|]. simpl.
  split; [by apply splice_indexOf_last|]. split.
  { intros w' Hne. by rewrite !lookup_alter_ne, lookup_insert_ne. }
  split; [done|]. split; [|done]. by rewrite <- app_assoc.
Qed.

Lemma register_then_dispose_restores_the_array_witness :
  let σ := run [RegisterDecorationsProvider slow_provider;
                RegisterDecorationsProvider badge_provider] empty_world in
  service_data σ = [0; 1]
  ∧ ∃ w σ1 σ2,
      Service.registerDecorationsProvider absent_provider σ = Ok w σ1
      ∧ Service.registration_dispose w σ1 = Ok tt σ2
      ∧ service_data σ2 = service_data σ.
Proof.
  intros σ. split; [reflexivity|].
  destruct (register_then_dispose_restores_the_array σ absent_provider)
    as (w & σ1 & σ2 & H1 & H2 & H3 & _); [by eexists|].
  by exists w, σ1, σ2.
Defined.

(** ** Token sources *)

Lemma idle_refl σ : idle σ σ.
Proof. done. Qed.

Lemma idle_trans σ1 σ2 σ3 : idle σ1 σ2 → idle σ2 σ3 → idle σ1 σ3.
Proof. intros [? ?] [? ?]. split; congruence. Qed.

Lemma keepItem_idle w uri data : respects idle (Wrapper.keepItem w uri data).
Proof.
  unfold Wrapper.keepItem, data_set, uriEmitter_fire.
  respects_steps idle_refl idle_trans ltac:(by intros ?).
Qed.

Lemma promise_fulfilled_idle source data :
  respects idle (promise_fulfilled source data).
Proof.
  intros σ. unfold promise_fulfilled.
  destruct (thenables σ !! source) as [[w uri]|]; [|done].
  as_respects. unfold data_get.
  respects_steps idle_refl idle_trans
    ltac:(first [apply keepItem_idle|by intros ?]).
Qed.

Lemma promise_rejected_idle source err :
  respects idle (promise_rejected source err).
Proof.
  intros σ. unfold promise_rejected.
  destruct (thenables σ !! source) as [[w uri]|]; [|done].
  as_respects. unfold data_get, data_delete.
  respects_steps idle_refl idle_trans ltac:(by intros ?).
Qed.

Lemma idle_tokens_ok σ σ' : idle σ σ' → keeps tokens_ok σ σ'.
Proof. intros [Hn Hp]. unfold keeps, tokens_ok. by rewrite Hn, Hp. Qed.

Lemma fetchData_tokens_ok w uri :
  respects (keeps tokens_ok) (Wrapper.fetchData w uri).
Proof.
  intros σ Hok. unfold tokens_ok in *.
  destruct (fetchData_provided w uri σ) as [-> ->].
  by rewrite fmap_app, Hok, seq_S.
Qed.

Lemma getOrRetrieve_tokens_ok {Acc} w uri includeChildren
    (callback : Decoration → bool → Acc → Acc) acc :
  respects (keeps tokens_ok)
    (Wrapper.getOrRetrieve w uri includeChildren callback acc).
Proof.
  unfold Wrapper.getOrRetrieve, data_get, data_findSuperstr.
  respects_steps (keeps_refl tokens_ok) (keeps_trans tokens_ok)
    ltac:(first [apply fetchData_tokens_ok|keeps_prim]).
Qed.

Lemma step_tokens_ok op σ : tokens_ok σ → tokens_ok (step op σ).
Proof.
  intros Hok. destruct op as [uri inc|p|w|w [uris|]|source data|source err];
    simpl.
  - revert Hok. unfold Service.getDecoration.
    apply (respects_bind _ (keeps_trans tokens_ok)).
    + apply (respects_for_of_acc _ (keeps_refl tokens_ok)
               (keeps_trans tokens_ok)).
      intros. apply getOrRetrieve_tokens_ok.
    + intros. apply (respects_ret _ (keeps_refl tokens_ok)).
  - done.
  - done.
  - unfold provider_onDidChange_fire.
    destruct (heap σ !! w) as [W|]; [|done].
    destruct (disposable W); [|done]. revert Hok. simpl.
    apply (respects_for_of _ (keeps_refl tokens_ok) (keeps_trans tokens_ok)).
    intros uri _. apply (respects_bind _ (keeps_trans tokens_ok)).
    + apply fetchData_tokens_ok.
    + intros. apply (respects_ret _ (keeps_refl tokens_ok)).
  - unfold provider_onDidChange_fire.
    destruct (heap σ !! w) as [W|]; [|done].
    by destruct (disposable W).
  - exact (idle_tokens_ok σ _ (promise_fulfilled_idle source data σ) Hok).
  - exact (idle_tokens_ok σ _ (promise_rejected_idle source err σ) Hok).
Qed.

(** X20: in every world the service can reach, the calls of
    [provideDecorations] made so far received the token sources created so
    far, one each and in the order of their creation: no two calls share a
    cancellation token, and no source is created without a call. *)
Theorem every_call_has_its_own_token (σ : World) :
  reachable σ →
  (provided σ).*2 = seq 0 (next_source σ)
  ∧ NoDup ((provided σ).*2).
Proof.
  intros [ops ->].
  assert (∀ σ, tokens_ok σ → tokens_ok (run ops σ)) as Hrun.
  { unfold run. induction ops as [|op ops IH]; intros σ Hok; simpl; [done|].
    by apply IH, step_tokens_ok. }
  specialize (Hrun empty_world eq_refl). split; [exact Hrun|].
  rewrite Hrun. apply NoDup_ListNoDup, List.seq_NoDup.
Qed.

Lemma every_call_has_its_own_token_witness :
  let σ := run [RegisterDecorationsProvider slow_provider;
                GetDecoration ["a"] false;
                ProviderDidChange 0 (Some [["a"]; ["b"]])] empty_world in
  provided σ = [(0, ["a"], 0); (0, ["a"], 1); (0, ["b"], 2)]
  ∧ NoDup ((provided σ).*2).
Proof.
  intros σ. split; [reflexivity|].
  apply (every_call_has_its_own_token σ). by eexists.
Defined.

